(** * A verification development for [matcher.py]

    [matcher.py] matches marketplace listings to a catalog of products.
    The catalog is indexed as manufacturer -> family -> product; a listing
    is resolved to a manufacturer by binary search plus a containment test,
    then to a product by a family-name containment test followed by a
    whole-token search for the product's model in the listing's title.

    The file is organised as follows:
    - [Py]: the Python built-ins the program relies on ([unicode.lower],
      [in] on strings, [<] on strings, [bisect.bisect_left], [list.sort],
      the iteration order of a CPython 2 [dict]);
    - [Re]: the fragment of Python's [re] syntax and semantics that the
      program's patterns live in;
    - [Matcher]: the program itself, function by function;
    - the properties proved about it.

    [matcher.py] is a Python 2 program, and the strings it handles are
    the [unicode] objects that [json.loads] returns.  Text is modelled by
    Rocq's [string], each character standing for the code point of its
    number, so the text of the model is the text over the code points
    U+0000 to U+00FF; text with a code point above U+00FF is outside the
    model.  On this range [unicode.lower] changes the letters A-Z and the
    capital letters U+00C0 to U+00DE (the multiplication sign U+00D7
    apart), to the code point 32 above; the word characters of [\b] are
    the ASCII letters, the digits and the underscore (the patterns are
    compiled without [re.UNICODE]); strings are ordered and hashed by
    code point; and a model with a code point above U+007F cannot be put
    into the byte-string template of the pattern.  Input files are
    modelled by the list of their decoded JSON objects, each a finite map
    from keys to string values; a key may be absent. *)

From Stdlib Require Import String Ascii ZArith Lia List Bool Permutation Sorted.
From Stdlib Require OrderedTypeEx.
From stdpp Require Import base option list strings gmap.
From Equations Require Import Equations.

(** ** Python built-ins *)

Module Py.

(** [unichr(n)], for [n < 256]. *)
Definition unichr (n : nat) : ascii := ascii_of_nat n.

(** The code points up to U+00FF that [unicode.lower] changes: the
    letters A-Z, and the capital letters U+00C0 to U+00D6 and U+00D8 to
    U+00DE; each goes to the code point 32 above. *)
Definition is_upper (c : ascii) : bool :=
  ((65 <=? nat_of_ascii c) && (nat_of_ascii c <=? 90) ||
   (192 <=? nat_of_ascii c) && (nat_of_ascii c <=? 214) ||
   (216 <=? nat_of_ascii c) && (nat_of_ascii c <=? 222))%nat.

Definition lower_char (c : ascii) : ascii :=
  if is_upper c then ascii_of_nat (nat_of_ascii c + 32) else c.

Fixpoint lower (s : string) : string :=
  match s with
  | EmptyString => EmptyString
  | String c s' => String (lower_char c) (lower s')
  end.

(** [s.encode('ascii')] succeeds: no code point of [s] is above U+007F. *)
Fixpoint encodable (s : string) : bool :=
  match s with
  | EmptyString => true
  | String c s' => (nat_of_ascii c <? 128)%nat && encodable s'
  end.

(** [s.startswith(p)], the helper of the containment test. *)
Fixpoint startswith (p s : string) : bool :=
  match p, s with
  | EmptyString, _ => true
  | String a p', String b s' => if Ascii.eqb a b then startswith p' s' else false
  | String _ _, EmptyString => false
  end.

(** [needle in hay] on strings: [needle] occurs in [hay] as a contiguous
    run of characters. *)
Fixpoint contains (needle hay : string) : bool :=
  startswith needle hay ||
  match hay with
  | EmptyString => false
  | String _ hay' => contains needle hay'
  end.

(** [a < b] on strings: lexicographic on character codes. *)
Definition str_lt (a b : string) : bool := String.ltb a b.

Section Sequences.
Context {A : Type} (less : A -> A -> bool).

(** The loop of [bisect.bisect_left(a, x)]:
<<
    while lo < hi:
        mid = (lo+hi)//2
        if a[mid] < x: lo = mid+1
        else: hi = mid
    return lo
>>
    [a[mid]] is always in range, because [mid < hi <= len(a)]: the
    [None] branch below is never taken. *)
Equations? bisect_loop (a : list A) (x : A) (lo hi : nat) : nat
  by wf (hi - lo) lt :=
  bisect_loop a x lo hi with decide (lo < hi) => {
    | right _ => lo
    | left _ with a !! ((lo + hi) / 2) => {
        | Some am with less am x => {
            | true => bisect_loop a x ((lo + hi) / 2 + 1) hi
            | false => bisect_loop a x lo ((lo + hi) / 2) }
        | None => lo } }.
Proof.
  all: match goal with
       | H : ?l < ?h |- _ =>
           assert (l <= (l + h) / 2 < h)
             by (split; [apply Nat.div_le_lower_bound
                        | apply Nat.Div0.div_lt_upper_bound]; lia)
       end.
  all: simpl in *; lia.
Qed.

Definition bisect_left (a : list A) (x : A) : nat :=
  bisect_loop a x 0 (length a).

(** [list.sort()]: the comparisons use [<] only and the sort is stable.
    The result of a stable sort is determined by the input, so it is
    given here by a stable insertion sort. *)
Fixpoint sort_insert (x : A) (l : list A) : list A :=
  match l with
  | [] => [x]
  | y :: l' => if less x y then x :: y :: l' else y :: sort_insert x l'
  end.

Definition sort (l : list A) : list A :=
  fold_left (fun acc x => sort_insert x acc) l [].

(** [a] comes no later than [b] in the order of [less]. *)
Definition no_later (a b : A) : Prop := less b a = false.

(** [i] is the leftmost place at which [x] can be inserted in [a]:
    what is before it is below [x], what is from it on is not. *)
Definition insertion_point (a : list A) (x : A) (i : nat) : Prop :=
  i <= length a /\
  (forall j y, j < i -> a !! j = Some y -> less y x = true) /\
  (forall j y, i <= j -> a !! j = Some y -> less y x = false).
End Sequences.

(** *** The iteration order of a CPython 2 dictionary

    [matcher.py] is a Python 2 program (its [main] uses the [print]
    statement).  A Python 2 [dict] is an open-addressing hash table and
    [for k in d] walks its slots in index order, so the order of the keys
    depends on their hashes and on the history of insertions, not on the
    order of insertion alone.  What follows is the layout of
    Objects/dictobject.c (CPython 2.7) for a dictionary that only grows,
    with the string hash of Objects/stringobject.c and
    Objects/unicodeobject.c (the two agree), on a 64-bit build without
    hash randomisation (the default). *)

Definition wrap64 (z : Z) : Z := z mod 2 ^ 64.

(** A C [long] read back from its 64-bit pattern. *)
Definition signed64 (z : Z) : Z :=
  let u := wrap64 z in if (u <? 2 ^ 63)%Z then u else (u - 2 ^ 64)%Z.

Definition ord (c : ascii) : Z := Z.of_nat (nat_of_ascii c).

(** [x = (1000003*x) ^ *p++] over the characters of the string. *)
Fixpoint hash_loop (x : Z) (s : string) : Z :=
  match s with
  | EmptyString => x
  | String c s' => hash_loop (wrap64 (Z.lxor (1000003 * x) (ord c))) s'
  end.

(** [string_hash]: the empty string hashes to 0; otherwise the loop is
    seeded with the first character shifted by 7, the length is mixed in
    at the end, and -1 (the error value) is replaced by -2. *)
Definition string_hash (s : string) : Z :=
  match s with
  | EmptyString => 0%Z
  | String c _ =>
      let x := hash_loop (Z.shiftl (ord c) 7) s in
      let x := signed64 (Z.lxor x (Z.of_nat (String.length s))) in
      if (x =? -1)%Z then (-2)%Z else x
  end.

(** A table: [mask] is its size minus one, [slots] its used entries as
    (slot index, key); there are no deletions, hence no dummy entries. *)
Record table := Table { mask : Z; slots : list (Z * string) }.

Definition slot_free (t : table) (i : Z) : bool :=
  forallb (fun e => negb (e.1 =? i)%Z) (slots t).

(** The probe loop of [lookdict] for a key that is not in the table:
<<
      for (perturb = hash; ; perturb >>= PERTURB_SHIFT) {
          i = (i << 2) + i + perturb + 1;
          ep = &ep0[i & mask];
          if (ep->me_key == NULL) return ep;
>>
      [i] and [perturb] are of type [size_t].  The loop of the C code is
      unbounded; it ends because the table is never full and the
      recurrence visits every slot once [perturb] has reached zero.  The
      model gives up after [fuel] probes and then yields the slot it
      stands on. *)
Fixpoint probe (fuel : nat) (t : table) (i perturb : Z) : Z :=
  match fuel with
  | O => Z.land i (mask t)
  | S fuel' =>
      let i' := wrap64 (Z.shiftl i 2 + i + perturb + 1) in
      if slot_free t (Z.land i' (mask t)) then Z.land i' (mask t)
      else probe fuel' t i' (Z.shiftr perturb 5)
  end.

(** The slot a fresh key with hash [h] lands in. *)
Definition find_slot (t : table) (h : Z) : Z :=
  let i := Z.land (wrap64 h) (mask t) in
  if slot_free t i then i
  else probe (64 + Z.to_nat (mask t)) t i (wrap64 h).

Definition place (t : table) (k : string) : table :=
  Table (mask t) ((find_slot t (string_hash k), k) :: slots t).

(** Entries in slot order, as a walk over the table meets them. *)
Fixpoint slot_insert (e : Z * string) (l : list (Z * string)) : list (Z * string) :=
  match l with
  | [] => [e]
  | e' :: l' => if (e.1 <? e'.1)%Z then e :: e' :: l' else e' :: slot_insert e l'
  end.

Definition by_slot (l : list (Z * string)) : list (Z * string) :=
  fold_right slot_insert [] l.

(** [dictresize(mp, minused)]: the new size is the first power of two
    above [minused], starting from 8; the old entries are re-inserted in
    slot order. *)
Fixpoint new_size (fuel : nat) (size minused : Z) : Z :=
  match fuel with
  | O => size
  | S fuel' => if (size <=? minused)%Z then new_size fuel' (2 * size) minused else size
  end.

Definition dictresize (t : table) (minused : Z) : table :=
  fold_left place (map snd (by_slot (slots t)))
            (Table (new_size 64 8 minused - 1) []).

(** [PyDict_SetItem] with a key that is not yet in the dictionary: the
    entry is placed and the table grows once it is two-thirds full. *)
Definition dict_add_key (t : table) (k : string) : table :=
  let t' := place t k in
  let used := Z.of_nat (length (slots t')) in
  if (used * 3 >=? (mask t' + 1) * 2)%Z
  then dictresize t' ((if (used >? 50000)%Z then 2 else 4) * used)
  else t'.

(** The order in which [for k in d] yields the keys of a dictionary into
    which the distinct keys [keys] were inserted in that order. *)
Definition dict_iteration_order (keys : list string) : list string :=
  map snd (by_slot (slots (fold_left dict_add_key keys (Table 7 [])))).

End Py.

(** ** The regular expressions of the program

    Every pattern the program compiles has the shape
    [(^|\b)(MODEL)($|\b)], with the product's model pasted in as it is.
    The model is therefore read as pattern syntax.  [Re] covers the part
    of Python 2.7's [re] syntax listed at [compile]; for a pattern outside
    of it the result is [NotModelled] and nothing is claimed. *)

Module Re.

Inductive regex : Type :=
| Empty                       (* the empty pattern *)
| Lit (c : ascii)             (* an ordinary character *)
| AnyChar                     (* .  : any character but a newline *)
| AtBeginning                 (* ^  : at the start of the string *)
| AtEnd                       (* $  : at the end, or before a final newline *)
| AtBoundary                  (* \b : between a word and a non-word character *)
| Seq (r1 r2 : regex)
| Alt (r1 r2 : regex)
| Star (r : regex)
| Plus (r : regex)
| Opt (r : regex).

(** *** Matching *)

(** The word characters of [\w] without the UNICODE and LOCALE flags. *)
Definition is_word (c : ascii) : bool :=
  let n := nat_of_ascii c in
  ((48 <=? n) && (n <=? 57) || (65 <=? n) && (n <=? 90) ||
   (97 <=? n) && (n <=? 122) || (n =? 95))%nat.

Definition newline : ascii := ascii_of_nat 10.

(** A position in the subject string: the character before it, if any,
    and what is left to read. *)
Record cursor := Cursor { before : option ascii; rest : string }.

Definition word_before (k : cursor) : bool :=
  match before k with Some c => is_word c | None => false end.

Definition word_after (k : cursor) : bool :=
  match rest k with String c _ => is_word c | EmptyString => false end.

Definition at_beginning (k : cursor) : bool :=
  match before k with None => true | Some _ => false end.

Definition at_end (k : cursor) : bool :=
  match rest k with
  | EmptyString => true
  | String c EmptyString => Ascii.eqb c newline
  | _ => false
  end.

Definition at_boundary (k : cursor) : bool := xorb (word_before k) (word_after k).

Definition guard (b : bool) (k : cursor) : list cursor := if b then [k] else [].

Definition read (p : ascii -> bool) (k : cursor) : list cursor :=
  match rest k with
  | String c s => if p c then [Cursor (Some c) s] else []
  | EmptyString => []
  end.

(** Zero or more rounds of [f].  A round that reads nothing leaves the
    cursor where it was and is not repeated; the others shorten what is
    left, so [fuel] = its length + 1 is enough. *)
Fixpoint rounds (f : cursor -> list cursor) (fuel : nat) (k : cursor) : list cursor :=
  match fuel with
  | O => [k]
  | S fuel' =>
      k :: flat_map (fun k' =>
                       if (String.length (rest k') <? String.length (rest k))%nat
                       then rounds f fuel' k' else [])
                    (f k)
  end.

(** [run r k]: the cursors at which a match of [r] that starts at [k]
    can end.  The backtracking matcher of [re] finds a match exactly when
    there is one. *)
Fixpoint run (r : regex) (k : cursor) : list cursor :=
  match r with
  | Empty => [k]
  | Lit c => read (Ascii.eqb c) k
  | AnyChar => read (fun c => negb (Ascii.eqb c newline)) k
  | AtBeginning => guard (at_beginning k) k
  | AtEnd => guard (at_end k) k
  | AtBoundary => guard (at_boundary k) k
  | Seq r1 r2 => flat_map (run r2) (run r1 k)
  | Alt r1 r2 => run r1 k ++ run r2 k
  | Star r' => rounds (run r') (S (String.length (rest k))) k
  | Plus r' => flat_map (fun k' => rounds (run r') (S (String.length (rest k'))) k')
                        (run r' k)
  | Opt r' => k :: run r' k
  end.

Definition matches_at (r : regex) (k : cursor) : bool :=
  match run r k with [] => false | _ :: _ => true end.

Fixpoint search_from (r : regex) (prev : option ascii) (s : string) : bool :=
  matches_at r (Cursor prev s) ||
  match s with
  | EmptyString => false
  | String c s' => search_from r (Some c) s'
  end.

(** [pattern.search(string) is not None] *)
Definition search (r : regex) (s : string) : bool := search_from r None s.

(** *** Compilation *)

(** The characters with a meaning in a pattern (the SPECIAL_CHARS of
    sre_parse.py), and the ordinary ones. *)
Inductive token : Type :=
| TOpen | TClose | TBar | TStar | TPlus | TQuestion | TBackslash
| TBracket | TBrace | TDot | TCaret | TDollar | TOrdinary.

Definition classify (c : ascii) : token :=
  if Ascii.eqb c "(" then TOpen
  else if Ascii.eqb c ")" then TClose
  else if Ascii.eqb c "|" then TBar
  else if Ascii.eqb c "*" then TStar
  else if Ascii.eqb c "+" then TPlus
  else if Ascii.eqb c "?" then TQuestion
  else if Ascii.eqb c "\" then TBackslash
  else if Ascii.eqb c "[" then TBracket
  else if Ascii.eqb c "{" then TBrace
  else if Ascii.eqb c "." then TDot
  else if Ascii.eqb c "^" then TCaret
  else if Ascii.eqb c "$" then TDollar
  else TOrdinary.

Definition is_alnum (c : ascii) : bool :=
  let n := nat_of_ascii c in
  ((48 <=? n) && (n <=? 57) || (65 <=? n) && (n <=? 90) ||
   (97 <=? n) && (n <=? 122))%nat.

(** What a repetition operator finds in front of it. *)
Inductive kind : Type :=
| Single      (* one character: can be repeated *)
| Anchor      (* ^ $ \b: "nothing to repeat" *)
| Repeated    (* already repeated *)
| Grouped.    (* a parenthesised group *)

(** A group being read: its finished alternatives and the items of the
    current one, both latest first. *)
Record frame := Frame { alternatives : list regex; items : list (regex * kind) }.

Definition sequence (l : list regex) : regex := fold_right Seq Empty l.

Fixpoint choice (l : list regex) : regex :=
  match l with
  | [] => Empty
  | [r] => r
  | r :: l' => Alt r (choice l')
  end.

Definition current (f : frame) : regex := sequence (rev (map fst (items f))).

Definition close (f : frame) : regex := choice (rev (current f :: alternatives f)).

Definition push (f : frame) (r : regex) (k : kind) : frame :=
  Frame (alternatives f) ((r, k) :: items f).

Definition next_alternative (f : frame) : frame :=
  Frame (current f :: alternatives f) [].

Inductive compiled : Type :=
| Compiled (r : regex)
| Error            (* re.compile raises sre_constants.error *)
| NotModelled.     (* syntax outside the fragment *)

Inductive repetition : Type := RStar | RPlus | ROpt.

Definition repeat (q : repetition) (r : regex) : regex :=
  match q with RStar => Star r | RPlus => Plus r | ROpt => Opt r end.

(** A repetition operator applied to the last item of [f].  Python 2.7
    rejects it when there is no item or the item is an anchor ("nothing
    to repeat"), and when the item is already repeated ("multiple
    repeat"), except that [?] after a repetition makes it lazy.  Lazy
    repetitions and repeated groups are left out of the fragment. *)
Definition apply_repeat (q : repetition) (f : frame) : option (option frame) :=
  match items f with
  | [] => Some None
  | (r, Single) :: l => Some (Some (Frame (alternatives f) ((repeat q r, Repeated) :: l)))
  | (_, Anchor) :: _ => Some None
  | (_, Repeated) :: _ => match q with ROpt => None | _ => Some None end
  | (_, Grouped) :: _ => None
  end.

(** [(?] opens one of the extensions ([(?:...)], [(?=...)], ...). *)
Definition extension (s : string) : bool :=
  match s with
  | String c _ => Ascii.eqb c "?"
  | EmptyString => false
  end.

(** The fragment: ordinary characters, [.], [^], [$], [\b], a backslash
    before a character that is not a letter or a digit, [|], groups
    [( )] and the operators [*], [+], [?] after a single character.
    Outside of it: [[ ]] classes, [{ }], [(?...)], the other escapes,
    lazy operators and operators after a group.  [f] is the group being
    read and [outer] the groups around it. *)
Fixpoint parse (s : string) (f : frame) (outer : list frame) : compiled :=
  match s with
  | EmptyString =>
      match outer with
      | [] => Compiled (close f)
      | _ :: _ => Error                       (* unbalanced parenthesis *)
      end
  | String c s' =>
      let repeated q :=
        match apply_repeat q f with
        | Some (Some f') => parse s' f' outer
        | Some None => Error
        | None => NotModelled
        end in
      match classify c with
      | TOrdinary => parse s' (push f (Lit c) Single) outer
      | TDot => parse s' (push f AnyChar Single) outer
      | TCaret => parse s' (push f AtBeginning Anchor) outer
      | TDollar => parse s' (push f AtEnd Anchor) outer
      | TBar => parse s' (next_alternative f) outer
      | TOpen =>
          if extension s' then NotModelled
          else parse s' (Frame [] []) (f :: outer)
      | TClose =>
          match outer with
          | [] => Error                       (* unbalanced parenthesis *)
          | g :: outer' => parse s' (push g (close f) Grouped) outer'
          end
      | TStar => repeated RStar
      | TPlus => repeated RPlus
      | TQuestion => repeated ROpt
      | TBackslash =>
          match s' with
          | EmptyString => Error              (* bogus escape (end of line) *)
          | String e s'' =>
              if Ascii.eqb e "b" then parse s'' (push f AtBoundary Anchor) outer
              else if is_alnum e then NotModelled
              else parse s'' (push f (Lit e) Single) outer
          end
      | TBracket | TBrace => NotModelled
      end
  end.

(** [re.compile(pattern)] *)
Definition compile (pattern : string) : compiled := parse pattern (Frame [] []) [].

(** *** Whole tokens *)

(** A string without any of the characters that mean something in a
    pattern. *)
Fixpoint ordinary (s : string) : bool :=
  match s with
  | EmptyString => true
  | String c s' => match classify c with TOrdinary => ordinary s' | _ => false end
  end.

(** The character before the position reached after reading [s]. *)
Fixpoint advance (prev : option ascii) (s : string) : option ascii :=
  match s with
  | EmptyString => prev
  | String c s' => advance (Some c) s'
  end.

(** [m] occurs in [t] as a whole token: [t] is [l], [m], [r] in a row,
    where [m] begins at the start of [t] or at a word boundary, and ends
    at the end of [t] (or before its final newline) or at a word
    boundary. *)
Definition whole_token (m t : string) : Prop :=
  exists l r,
    t = l +:+ m +:+ r /\
    (l = EmptyString \/ at_boundary (Cursor (advance None l) (m +:+ r)) = true) /\
    (at_end (Cursor (advance None (l +:+ m)) r) = true \/
     at_boundary (Cursor (advance None (l +:+ m)) r) = true).

(** The pattern that asks for the characters of [s] one after the
    other. *)
Fixpoint literals (s : string) : list regex :=
  match s with
  | EmptyString => []
  | String c s' => Lit c :: literals s'
  end.

(** What [(^|\b)(MODEL)($|\b)] compiles to when the model is made of
    ordinary characters. *)
Definition whole_model (model : string) : regex :=
  Seq (Alt (Seq AtBeginning Empty) (Seq AtBoundary Empty))
      (Seq (sequence (literals model))
           (Seq (Alt (Seq AtEnd Empty) (Seq AtBoundary Empty)) Empty)).

End Re.

(** ** The program *)

Module Matcher.
Import Py.

(** A decoded JSON object: [json.loads(line)]. *)
Abbreviation json := (gmap string string).

Inductive exn : Type :=
| KeyError (key : string)     (* obj[key] with the key absent *)
| UnicodeEncodeError          (* a byte string formatted with text that is not ASCII *)
| ReError.                    (* re.compile on a malformed pattern *)

(** The outcome of a computation that may raise.  [Unmodelled] marks a
    pattern outside the fragment of [Re]. *)
Inductive result (A : Type) : Type :=
| Done (a : A)
| Raise (e : exn)
| Unmodelled.
Arguments Done {A} a.
Arguments Raise {A} e.
Arguments Unmodelled {A}.

Definition bind {A B} (x : result A) (f : A -> result B) : result B :=
  match x with
  | Done a => f a
  | Raise e => Raise e
  | Unmodelled => Unmodelled
  end.

Notation "x <- e1 ; e2" := (bind e1 (fun x => e2))
  (at level 100, e1 at next level, right associativity).

(** [obj[key]] *)
Definition getitem (obj : json) (key : string) : result string :=
  match obj !! key with
  | Some v => Done v
  | None => Raise (KeyError key)
  end.

(** [normalize(s)]: [None] is returned as it is, a string is lower-cased. *)
Definition normalize (s : option string) : option string :=
  match s with
  | None => None
  | Some s' => Some (lower s')
  end.

(** [normalize] at an argument that is a string. *)
Definition normalize_str (s : string) : string := lower s.

Module Product.
Record t := Make {
  name : string;
  family : option string;
  model : string;
  whole_model_re : Re.regex
}.

(** The text of [r'(^|\b)({0})($|\b)'.format(model)] *)
Definition pattern (model : string) : string :=
  "(^|\b)(" +:+ model +:+ ")($|\b)".

(** [r'(^|\b)({0})($|\b)'.format(model)]: the template is a byte string
    and the model a [unicode] object, which [format] encodes with the
    ASCII codec before it is put in; this raises when the model has a
    character that is not ASCII. *)
Definition format_pattern (model : string) : result string :=
  if encodable model then Done (pattern model) else Raise UnicodeEncodeError.

(** [Product.__init__] *)
Definition new (name : string) (family : option string) (model : string) : result t :=
  let model := normalize_str model in
  formatted <- format_pattern model;
  match Re.compile formatted with
  | Re.Compiled re => Done (Make (normalize_str name) (normalize family) model re)
  | Re.Error => Raise ReError
  | Re.NotModelled => Unmodelled
  end.
End Product.

Module Family.
Record t := Make {
  name : string;
  products : list Product.t
}.

Definition new (name : string) : t := Make (normalize_str name) [].

Definition add_product (f : t) (p : Product.t) : t :=
  Make (name f) (products f ++ [p]).
End Family.

Module Manufacturer.
Record t := Make {
  name : string;
  products : list Product.t;           (* all products *)
  families : list Family.t;            (* families and their products *)
  orphans_products : list Product.t    (* products without family *)
}.

Definition new (name : string) : t := Make (normalize_str name) [] [] [].

(** The family part of [add_product]: the first family of that name is
    looked up; a new one is appended when there is none; the product is
    added to it, in place. *)
Definition add_to_family (fams : list Family.t) (family : string) (p : Product.t)
  : list Family.t :=
  let normalized_family_name := normalize_str family in
  match list_find (fun f => Family.name f = normalized_family_name) fams with
  | Some (i, f) => <[i := Family.add_product f p]> fams
  | None => fams ++ [Family.add_product (Family.new normalized_family_name) p]
  end.

(** [Manufacturer.add_product] *)
Definition add_product (m : t) (p : Product.t) : t :=
  match Product.family p with
  | None => Make (name m) (products m ++ [p]) (families m) (orphans_products m ++ [p])
  | Some family =>
      Make (name m) (products m ++ [p]) (add_to_family (families m) family p)
           (orphans_products m)
  end.

(** [__lt__] *)
Definition lt (a b : t) : bool := str_lt (name a) (name b).

(** [__eq__] *)
Definition eq (a b : t) : bool := String.eqb (name a) (name b).

(** [__ne__] *)
Definition ne (a b : t) : bool := negb (String.eqb (name a) (name b)).

(** [__repr__] *)
Definition repr (m : t) : string := name m.
End Manufacturer.

(** *** Building the catalog index *)

(** One round of the loop of [prepare_products_data]. *)
Definition prepare_product (manufacturers : list Manufacturer.t) (product_json : json)
  : result (list Manufacturer.t) :=
  manufacturer_name <- getitem product_json "manufacturer";
  let normalized_manufacturer_name := normalize_str manufacturer_name in
  let '(manufacturers, i) :=
    match list_find (fun m => Manufacturer.name m = normalized_manufacturer_name)
                    manufacturers with
    | Some (i, _) => (manufacturers, i)
    | None => (manufacturers ++ [Manufacturer.new normalized_manufacturer_name],
               length manufacturers)
    end in
  product_name <- getitem product_json "product_name";
  let family := product_json !! "family" in
  model <- getitem product_json "model";
  product <- Product.new product_name family model;
  Done (alter (fun m => Manufacturer.add_product m product) i manufacturers).

Fixpoint prepare_loop (manufacturers : list Manufacturer.t) (lines : list json)
  : result (list Manufacturer.t) :=
  match lines with
  | [] => Done manufacturers
  | product_json :: lines' =>
      manufacturers' <- prepare_product manufacturers product_json;
      prepare_loop manufacturers' lines'
  end.

(** [prepare_products_data]: the value of [self.manufacturers]. *)
Definition prepare_products_data (lines : list json) : result (list Manufacturer.t) :=
  manufacturers <- prepare_loop [] lines;
  Done (sort Manufacturer.lt manufacturers).

(** *** Matching the listings *)

(** [self.matches]: a dictionary from product names to lists of listings,
    written as the list of its entries in the order in which the keys
    were first inserted (keys are never removed). *)
Abbreviation dict := (list (string * list json)).

(** [key in d] *)
Definition dict_contains (d : dict) (key : string) : bool :=
  existsb (fun e => String.eqb e.1 key) d.

(** [d[key]] *)
Definition dict_get (d : dict) (key : string) : option (list json) :=
  snd <$> find (fun e => String.eqb e.1 key) d.

(** [d[key].append(x)], for a key of [d] *)
Fixpoint dict_append (d : dict) (key : string) (x : json) : dict :=
  match d with
  | [] => []
  | (k, v) :: d' =>
      if String.eqb k key then (k, v ++ [x]) :: d' else (k, v) :: dict_append d' key x
  end.

(** The attributes [match_listings] works on.  The last three exist in
    debug mode only; otherwise they stay as they are here. *)
Record state := State {
  matches : dict;
  matches_count : nat;
  non_matched_manufacturer : list json;
  non_matched_product : list json
}.

Section Run.
Variable debug_mode : bool.

(** The body of the [if] in [find_product_and_add_to_result]: the
    listing is recorded under the product's name. *)
Definition add_to_result (st : state) (product : Product.t) (listing : json) : state :=
  let name := Product.name product in
  State (if negb (dict_contains (matches st) name)
         then matches st ++ [(name, [listing])]
         else dict_append (matches st) name listing)
        (if debug_mode then matches_count st + 1 else matches_count st)
        (non_matched_manufacturer st)
        (non_matched_product st).

(** [find_product_and_add_to_result]: the new state and the value
    returned. *)
Fixpoint find_product_and_add_to_result (st : state) (products : list Product.t)
    (listing : json) (normalized_listing_title : string) : state * bool :=
  match products with
  | [] => (st, false)
  | product :: products' =>
      if Re.search (Product.whole_model_re product) normalized_listing_title
      then (add_to_result st product listing, true)
      else find_product_and_add_to_result st products' listing normalized_listing_title
  end.

(** The [for family in manufacturer.families] loop; the flag tells
    whether it was left by [break]. *)
Fixpoint families_loop (st : state) (families : list Family.t)
    (listing : json) (normalized_listing_title : string) : state * bool :=
  match families with
  | [] => (st, false)
  | family :: families' =>
      if contains (Family.name family) normalized_listing_title
      then
        let '(st', found) :=
          find_product_and_add_to_result st (Family.products family) listing
                                         normalized_listing_title in
        if found then (st', true)
        else families_loop st' families' listing normalized_listing_title
      else families_loop st families' listing normalized_listing_title
  end.

(** [manufacturers[i]] when [i] is in range and the listing's name is
    contained in its name. *)
Definition candidate (manufacturers : list Manufacturer.t)
    (normalized_manufacturer_name : string) (i : nat) : option Manufacturer.t :=
  match manufacturers !! i with
  | Some m =>
      if contains normalized_manufacturer_name (Manufacturer.name m) then Some m else None
  | None => None
  end.

(** The value of [manufacturer] after the [if]/[elif] that follows the
    binary search: the entry at [index], or else the one before it. *)
Definition find_manufacturer (manufacturers : list Manufacturer.t)
    (normalized_manufacturer_name : string) : option Manufacturer.t :=
  let index := bisect_left Manufacturer.lt manufacturers
                           (Manufacturer.new normalized_manufacturer_name) in
  match candidate manufacturers normalized_manufacturer_name index with
  | Some m => Some m
  | None =>
      match index with
      | O => None
      | S before => candidate manufacturers normalized_manufacturer_name before
      end
  end.

(** What is done for a listing once its manufacturer is known. *)
Definition match_in_manufacturer (st : state) (manufacturer : option Manufacturer.t)
    (listing : json) (normalized_listing_title : string) : state :=
  match manufacturer with
  | Some m =>
      let '(st', broke) :=
        families_loop st (Manufacturer.families m) listing normalized_listing_title in
      if broke then st'
      else
        let '(st'', found) :=
          find_product_and_add_to_result st' (Manufacturer.orphans_products m)
                                         listing normalized_listing_title in
        if negb found && debug_mode
        then State (matches st'') (matches_count st'') (non_matched_manufacturer st'')
                   (non_matched_product st'' ++ [listing])
        else st''
  | None =>
      if debug_mode
      then State (matches st) (matches_count st) (non_matched_manufacturer st ++ [listing])
                 (non_matched_product st)
      else st
  end.

(** One round of the loop of [match_listings]. *)
Definition match_listing (manufacturers : list Manufacturer.t) (st : state)
    (listing : json) : result state :=
  manufacturer_name <- getitem listing "manufacturer";
  let normalized_manufacturer_name := normalize_str manufacturer_name in
  title <- getitem listing "title";
  let normalized_listing_title := normalize_str title in
  let manufacturer := find_manufacturer manufacturers normalized_manufacturer_name in
  Done (match_in_manufacturer st manufacturer listing normalized_listing_title).

Fixpoint match_loop (manufacturers : list Manufacturer.t) (st : state)
    (lines : list json) : result state :=
  match lines with
  | [] => Done st
  | listing :: lines' =>
      st' <- match_listing manufacturers st listing;
      match_loop manufacturers st' lines'
  end.

Definition initial : state := State [] 0 [] [].

(** [match_listings] *)
Definition match_listings (manufacturers : list Manufacturer.t) (lines : list json)
  : result state :=
  match_loop manufacturers initial lines.

(** [produce_output]: the lines written, each as the pair of its
    [product_name] and [listings]; [for product_name in self.matches]
    follows the order of the dictionary, and [self.matches[product_name]]
    is there for each of its keys. *)
Definition produce_output (st : state) : list (string * list json) :=
  omap (fun product_name =>
          (fun listings => (product_name, listings)) <$> dict_get (matches st) product_name)
       (dict_iteration_order (map fst (matches st))).

(** [run] *)
Definition run (products_file listings_file : list json)
  : result (list (string * list json)) :=
  manufacturers <- prepare_products_data products_file;
  st <- match_listings manufacturers listings_file;
  Done (produce_output st).
End Run.

(** *** Notions used to state the properties *)

(** [s] occurs in [t] as a contiguous run of characters. *)
Definition substring (s t : string) : Prop :=
  exists l r, t = l +:+ s +:+ r.

(** Two characters that differ at most in case. *)
Definition case_variant (a b : ascii) : Prop :=
  a = b \/
  (is_upper a = true /\ nat_of_ascii b = nat_of_ascii a + 32) \/
  (is_upper b = true /\ nat_of_ascii a = nat_of_ascii b + 32).

(** Two strings that differ at most in the case of their letters. *)
Inductive caseless_eq : string -> string -> Prop :=
| caseless_nil : caseless_eq EmptyString EmptyString
| caseless_cons a b s t :
    case_variant a b -> caseless_eq s t -> caseless_eq (String a s) (String b t).

(** A string without a character that [lower] changes. *)
Fixpoint lowercase (s : string) : bool :=
  match s with
  | EmptyString => true
  | String c s' => negb (is_upper c) && lowercase s'
  end.

(** The keys of a dictionary, in the order of their first insertion. *)
Definition keys (d : dict) : list string := map fst d.

(** The first product of a candidate list whose pattern is found in the
    title. *)
Definition first_match (products : list Product.t) (title : string) : option Product.t :=
  find (fun p => Re.search (Product.whole_model_re p) title) products.

(** A family whose name occurs in the title and one of whose products
    is found in it. *)
Definition family_resolves (title : string) (f : Family.t) : bool :=
  contains (Family.name f) title &&
  bool_decide (is_Some (first_match (Family.products f) title)).

(** The product a title resolves to within a manufacturer: the first
    match of the first family that resolves, else the first match among
    the orphans. *)
Definition resolve_product (m : Manufacturer.t) (title : string) : option Product.t :=
  match find (family_resolves title) (Manufacturer.families m) with
  | Some f => first_match (Family.products f) title
  | None => first_match (Manufacturer.orphans_products m) title
  end.

(** [p] is the product built from the catalog record [r]. *)
Definition built_from (r : json) (p : Product.t) : Prop :=
  exists product_name model,
    r !! "product_name" = Some product_name /\ r !! "model" = Some model /\
    Product.new product_name (r !! "family") model = Done p.

(** Every product of the index, in a family or orphan, satisfies [P]. *)
Definition all_products (P : Product.t -> Prop) (manufacturers : list Manufacturer.t) : Prop :=
  Forall (fun m =>
            Forall P (Manufacturer.orphans_products m) /\
            Forall (fun f => Forall P (Family.products f)) (Manufacturer.families m))
         manufacturers.

(** A catalog record that lacks one of the required fields. *)
Definition missing_required (r : json) : Prop :=
  r !! "manufacturer" = None \/ r !! "product_name" = None \/ r !! "model" = None.

(** A catalog record whose pattern is in the fragment of [Re]. *)
Definition in_fragment (r : json) : Prop :=
  forall model, r !! "model" = Some model ->
    Re.compile (Product.pattern (normalize_str model)) <> Re.NotModelled.

(** The manufacturer a listing resolves to. *)
Definition listing_manufacturer (manufacturers : list Manufacturer.t) (listing : json)
  : option Manufacturer.t :=
  match listing !! "manufacturer" with
  | Some name => find_manufacturer manufacturers (normalize_str name)
  | None => None
  end.

(** The product a listing resolves to. *)
Definition listing_product (manufacturers : list Manufacturer.t) (listing : json)
  : option Product.t :=
  match listing_manufacturer manufacturers listing, listing !! "title" with
  | Some m, Some title => resolve_product m (normalize_str title)
  | _, _ => None
  end.

(** The distinct strings of a list, each at its first occurrence. *)
Definition first_seen (l : list string) : list string := rev (remove_dups (rev l)).

(** The names of the products the listings resolve to, listing by
    listing. *)
Definition matched_names (manufacturers : list Manufacturer.t) (lines : list json)
  : list string :=
  omap (fun listing => Product.name <$> listing_product manufacturers listing) lines.

(** The state after a listing for which no product was found in its
    manufacturer. *)
Definition without_product (debug_mode : bool) (st : state) (listing : json) : state :=
  if debug_mode
  then State (matches st) (matches_count st) (non_matched_manufacturer st)
             (non_matched_product st ++ [listing])
  else st.

(** The state after a listing for which no manufacturer was found. *)
Definition without_manufacturer (debug_mode : bool) (st : state) (listing : json) : state :=
  if debug_mode
  then State (matches st) (matches_count st) (non_matched_manufacturer st ++ [listing])
             (non_matched_product st)
  else st.

(** *** The rest of the program and of the notions *)

(** The numbers [main] prints in debug mode: the matches, the listings
    that did not match any product, and those among them that did not
    even match a manufacturer. *)
Definition debug_report (st : state) : nat * nat * nat :=
  (matches_count st,
   length (non_matched_product st) + length (non_matched_manufacturer st),
   length (non_matched_manufacturer st)).

(** The normalized manufacturer name of a catalog record. *)
Definition record_manufacturer (r : json) : option string :=
  normalize_str <$> r !! "manufacturer".

(** The product [Product(...)] builds from a catalog record. *)
Definition product_of (r : json) : option Product.t :=
  match r !! "product_name", r !! "model" with
  | Some product_name, Some model =>
      match Product.new product_name (r !! "family") model with
      | Done p => Some p
      | _ => None
      end
  | _, _ => None
  end.

(** The products of the records of a catalog that name the manufacturer
    [n], in the order of the catalog. *)
Definition products_for (n : string) (lines : list json) : list Product.t :=
  omap product_of (filter (fun r => record_manufacturer r = Some n) lines).

(** The family a product is filed under by [Manufacturer.add_product]:
    [normalize(product.family)]. *)
Definition filed_under (p : Product.t) : option string := normalize (Product.family p).

(** How the lists of a manufacturer hang together: the orphans are its
    products without family, the products of a family are its products
    filed under the name of the family, both in the order of [products],
    and the families are the distinct names its products are filed
    under, in the order in which they first occur. *)
Definition partitioned (m : Manufacturer.t) : Prop :=
  Manufacturer.orphans_products m
    = filter (fun p => filed_under p = None) (Manufacturer.products m) /\
  Forall (fun f => Family.products f
                   = filter (fun p => filed_under p = Some (Family.name f))
                            (Manufacturer.products m))
         (Manufacturer.families m) /\
  Family.name <$> Manufacturer.families m
    = first_seen (omap filed_under (Manufacturer.products m)).

(** A catalog record with the three required fields and a model made of
    ASCII characters that are ordinary in a pattern. *)
Definition plain_record (r : json) : Prop :=
  is_Some (r !! "manufacturer") /\ is_Some (r !! "product_name") /\
  exists model, r !! "model" = Some model /\
                encodable (normalize_str model) = true /\
                Re.ordinary (normalize_str model) = true.

(** A listing with the two fields the program reads. *)
Definition readable (listing : json) : Prop :=
  is_Some (listing !! "manufacturer") /\ is_Some (listing !! "title").

(** The listings that resolve to the product named [k]. *)
Definition listings_of (manufacturers : list Manufacturer.t) (k : string)
    (lines : list json) : list json :=
  filter (fun l => Product.name <$> listing_product manufacturers l = Some k) lines.

(** A title with a word character in it. *)
Fixpoint has_word (s : string) : bool :=
  match s with
  | EmptyString => false
  | String c s' => Re.is_word c || has_word s'
  end.

End Matcher.

(** ** Concrete catalogs and listings *)

Module Scenario.
Import Matcher.

Definition product_record (manufacturer family model product_name : string) : json :=
  {[ "manufacturer" := manufacturer; "family" := family; "model" := model;
     "product_name" := product_name ]}.

Definition orphan_record (manufacturer model product_name : string) : json :=
  {[ "manufacturer" := manufacturer; "model" := model; "product_name" := product_name ]}.

Definition listing_record (manufacturer title : string) : json :=
  {[ "manufacturer" := manufacturer; "title" := title ]}.

(** The end-to-end scenario. *)
Definition acme_catalog : list json :=
  [product_record "Acme" "Pro" "X100" "Acme Pro X100"].
Definition acme_x100 : json := listing_record "ACME" "Acme Pro X100 Black".
Definition acme_x1000 : json := listing_record "ACME" "Acme Pro X1000 Black".

(** Two manufacturers of which one name is the beginning of the other. *)
Definition sony_index : list Manufacturer.t :=
  [Manufacturer.new "sony"; Manufacturer.new "sony ericsson"].

(** Two products matched in the order "b", "a". *)
Definition ba_catalog : list json :=
  [orphan_record "m" "b" "b"; orphan_record "m" "a" "a"].
Definition ba_listings : list json :=
  [listing_record "m" "b"; listing_record "m" "a"].

(** Models with a character that has a meaning in a pattern. *)
Definition plus_catalog : list json := [orphan_record "Acme" "T+1" "Acme T+1"].
Definition plus_listing : json := listing_record "Acme" "T+1".
Definition dot_catalog : list json := [orphan_record "Acme" "1.5" "Acme 1.5"].
Definition dot_listing : json := listing_record "Acme" "Acme 125".
Definition cplusplus_catalog : list json := [orphan_record "Acme" "C++" "Acme C++"].

(** A catalog record without model and display name. *)
Definition incomplete_record : json := {[ "manufacturer" := "Acme" ]}.

(** Text with a letter that is not ASCII: "CAF" and "caf" followed by
    the E with acute accent, capital (U+00C9) and small (U+00E9). *)
Definition cafe_capitals : string :=
  String "C" (String "A" (String "F" (String (Py.unichr 201) EmptyString))).
Definition cafe_small : string :=
  String "c" (String "a" (String "f" (String (Py.unichr 233) EmptyString))).
Definition cafe_catalog : list json := [orphan_record cafe_capitals "X1" "Cafe X1"].
Definition cafe_listing : json := listing_record cafe_small "Cafe X1 grinder".


(** The index of a catalog, empty when building it fails. *)
Definition index_of (catalog : list json) : list Manufacturer.t :=
  match prepare_products_data catalog with
  | Done manufacturers => manufacturers
  | _ => []
  end.

(** The pattern of a model, [Re.Empty] when it does not compile. *)
Definition pattern_of (model : string) : Re.regex :=
  match Re.compile (Product.pattern model) with
  | Re.Compiled re => re
  | _ => Re.Empty
  end.

(** The product and the manufacturer of the end-to-end scenario. *)
Definition acme_product : Product.t :=
  Product.Make "acme pro x100" (Some "pro") "x100" (pattern_of "x100").
Definition acme_manufacturer : Manufacturer.t :=
  Manufacturer.Make "acme" [acme_product] [Family.Make "pro" [acme_product]] [].

End Scenario.

(** ** Properties *)

Import Py Matcher.

(** *** Strings *)

Lemma lower_char_idempotent (c : ascii) : lower_char (lower_char c) = lower_char c.
Proof. destruct c as [[] [] [] [] [] [] [] []]; reflexivity. Qed.

Lemma lower_idempotent (s : string) : lower (lower s) = lower s.
Proof.
  induction s as [|c s IH]; simpl; [reflexivity|].
  by rewrite lower_char_idempotent, IH.
Qed.

Lemma lower_char_case_variant (a b : ascii) :
  case_variant a b -> lower_char a = lower_char b.
Proof.
  intros [->|[[Hu Hn]|[Hu Hn]]]; [reflexivity| |].
  - rewrite <- (ascii_nat_embedding b), Hn.
    destruct a as [[] [] [] [] [] [] [] []]; try discriminate Hu; reflexivity.
  - rewrite <- (ascii_nat_embedding a), Hn.
    destruct b as [[] [] [] [] [] [] [] []]; try discriminate Hu; reflexivity.
Qed.

Lemma lower_caseless (s t : string) : caseless_eq s t -> lower s = lower t.
Proof.
  induction 1 as [|a b s t Hab _ IH]; simpl; [reflexivity|].
  by rewrite (lower_char_case_variant a b Hab), IH.
Qed.

Lemma lower_char_variant (c : ascii) : case_variant c (lower_char c).
Proof.
  destruct c as [[] [] [] [] [] [] [] []];
    first [left; reflexivity | right; left; split; reflexivity].
Qed.

Lemma lower_variant (s : string) : caseless_eq s (lower s).
Proof.
  induction s as [|c s IH]; simpl; constructor; [apply lower_char_variant | exact IH].
Qed.

Lemma lower_char_lowercase (c : ascii) : is_upper (lower_char c) = false.
Proof. destruct c as [[] [] [] [] [] [] [] []]; reflexivity. Qed.

Lemma lower_lowercase (s : string) : lowercase (lower s) = true.
Proof.
  induction s as [|c s IH]; simpl; [reflexivity|].
  by rewrite lower_char_lowercase, IH.
Qed.

Lemma lower_of_lowercase (s : string) : lowercase s = true -> lower s = s.
Proof.
  induction s as [|c s IH]; simpl; [reflexivity|].
  intros [Hc Hs]%andb_true_iff. rewrite (IH Hs). unfold lower_char.
  by destruct (is_upper c).
Qed.

(** C7: [normalize] is idempotent; it does not see the case of letters
    (two strings that differ only in case normalize to the same string,
    as "ABC" and "abc" do); and it returns an absent or an empty input
    as it is.  The same holds of [normalize] at a string, the form in
    which the program applies it to the manufacturer, the title, the
    model and the names: its value is the lower-case string that
    differs from the argument in case only, so that it leaves a string
    in lower case as it is, takes "ABC" to "abc", and a capital letter
    that is not ASCII to its small letter; and two listings that differ
    only in the case of the manufacturer and of the title resolve to the
    same product. *)
Theorem normalize_idempotent_caseless :
  (forall s : option string, normalize (normalize s) = normalize s) /\
  (forall s : string, normalize_str (normalize_str s) = normalize_str s) /\
  normalize (Some "ABC") = normalize (Some "abc") /\
  (forall s t : string, caseless_eq s t -> normalize (Some s) = normalize (Some t)) /\
  normalize None = None /\
  normalize (Some "") = Some "" /\
  (forall s : string, normalize (Some s) = Some (normalize_str s)) /\
  (forall s t : string, caseless_eq s t -> normalize_str s = normalize_str t) /\
  (forall s : string,
     caseless_eq s (normalize_str s) /\ lowercase (normalize_str s) = true) /\
  (forall s : string, lowercase s = true -> normalize_str s = s) /\
  normalize_str "ABC" = "abc" /\
  normalize_str Scenario.cafe_capitals = Scenario.cafe_small /\
  (forall manufacturers l l' man man' title title',
     l !! "manufacturer" = Some man -> l' !! "manufacturer" = Some man' ->
     l !! "title" = Some title -> l' !! "title" = Some title' ->
     caseless_eq man man' -> caseless_eq title title' ->
     listing_product manufacturers l = listing_product manufacturers l').
Proof.
  split; [|split; [|split; [|split; [|split; [|split; [|split; [|split; [|split;
    [|split; [|split; [|split]]]]]]]]]]].
  - intros [s|]; simpl; [|reflexivity]. by rewrite lower_idempotent.
  - intros s. apply lower_idempotent.
  - reflexivity.
  - intros s t Hst. simpl. by rewrite (lower_caseless s t Hst).
  - reflexivity.
  - reflexivity.
  - reflexivity.
  - intros s t Hst. apply (lower_caseless s t Hst).
  - intros s. split; [apply lower_variant | apply lower_lowercase].
  - apply lower_of_lowercase.
  - reflexivity.
  - reflexivity.
  - intros ms l l' man man' title title' Hman Hman' Htitle Htitle' Hm Ht.
    unfold listing_product, listing_manufacturer.
    rewrite Hman, Hman', Htitle, Htitle'. unfold normalize_str.
    by rewrite (lower_caseless man man' Hm), (lower_caseless title title' Ht).
Qed.

(** *** The pattern of a product *)

Lemma product_new_spec (name : string) (family : option string) (model : string) :
  Product.new name family model =
  if encodable (normalize_str model)
  then match Re.compile (Product.pattern (normalize_str model)) with
       | Re.Compiled re =>
           Done (Product.Make (normalize_str name) (normalize family)
                              (normalize_str model) re)
       | Re.Error => Raise ReError
       | Re.NotModelled => Unmodelled
       end
  else Raise UnicodeEncodeError.
Proof.
  unfold Product.new, Product.format_pattern.
  by destruct (encodable (normalize_str model)).
Qed.

(** *** The dictionary of matches *)

Lemma dict_contains_get (d : dict) (k : string) :
  dict_contains d k = true <-> is_Some (dict_get d k).
Proof.
  unfold dict_contains, dict_get.
  induction d as [|[k' v] d IH]; simpl.
  - split; [discriminate | intros [? ?]; discriminate].
  - destruct (String.eqb k' k); simpl; [|exact IH].
    split; [eauto | reflexivity].
Qed.

Lemma dict_contains_keys (d : dict) (k : string) :
  dict_contains d k = true <-> k ∈ keys d.
Proof.
  unfold dict_contains, keys.
  induction d as [|[k' v] d IH]; simpl.
  - split; [discriminate | intros H; inversion H].
  - rewrite elem_of_cons.
    destruct (String.eqb_spec k' k) as [->|Hne]; simpl; [tauto|].
    rewrite IH. split; [tauto | intros [->|?]; [done | assumption]].
Qed.

Lemma dict_get_fresh (d : dict) (k k' : string) (v : list json) :
  dict_contains d k = false ->
  dict_get (d ++ [(k, v)]) k' = if String.eqb k k' then Some v else dict_get d k'.
Proof.
  unfold dict_contains, dict_get.
  induction d as [|[k0 v0] d IH]; simpl; intros Hk.
  - by destruct (String.eqb k k').
  - apply orb_false_iff in Hk as [Hk0 Hk].
    destruct (String.eqb_spec k0 k') as [->|Hne]; simpl.
    + apply String.eqb_neq in Hk0.
      destruct (String.eqb_spec k k'); [congruence | reflexivity].
    + by apply IH.
Qed.

Lemma dict_get_append (d : dict) (k k' : string) (x : json) :
  dict_get (dict_append d k x) k' =
  if String.eqb k k' then (fun v => v ++ [x]) <$> dict_get d k' else dict_get d k'.
Proof.
  unfold dict_get.
  induction d as [|[k0 v0] d IH]; simpl.
  - by destruct (String.eqb k k').
  - destruct (String.eqb_spec k0 k) as [->|Hne]; simpl.
    + by destruct (String.eqb k k').
    + destruct (String.eqb_spec k0 k') as [->|Hne']; simpl.
      * destruct (String.eqb_spec k k'); [congruence | reflexivity].
      * exact IH.
Qed.

Lemma keys_dict_append (d : dict) (k : string) (x : json) :
  keys (dict_append d k x) = keys d.
Proof.
  unfold keys. induction d as [|[k0 v0] d IH]; simpl; [reflexivity|].
  destruct (String.eqb k0 k); simpl; [reflexivity | by rewrite IH].
Qed.

Section Aggregation.
Variable debug_mode : bool.

Lemma add_to_result_get (st : state) (p : Product.t) (l : json) (k : string) :
  dict_get (matches (add_to_result debug_mode st p l)) k =
  if String.eqb (Product.name p) k
  then Some (default [] (dict_get (matches st) k) ++ [l])
  else dict_get (matches st) k.
Proof.
  unfold add_to_result; simpl.
  destruct (dict_contains (matches st) (Product.name p)) eqn:Hc; simpl.
  - rewrite dict_get_append.
    destruct (String.eqb_spec (Product.name p) k) as [<-|]; [|reflexivity].
    apply dict_contains_get in Hc as [v ->]. reflexivity.
  - rewrite dict_get_fresh by assumption.
    destruct (String.eqb_spec (Product.name p) k) as [<-|]; [|reflexivity].
    destruct (dict_get (matches st) (Product.name p)) eqn:Hg; [|reflexivity].
    assert (dict_contains (matches st) (Product.name p) = true)
      by (apply dict_contains_get; eauto).
    congruence.
Qed.

Lemma add_to_result_keys (st : state) (p : Product.t) (l : json) :
  keys (matches (add_to_result debug_mode st p l)) =
  if dict_contains (matches st) (Product.name p)
  then keys (matches st) else keys (matches st) ++ [Product.name p].
Proof.
  unfold add_to_result; simpl.
  destruct (dict_contains (matches st) (Product.name p)); simpl.
  - apply keys_dict_append.
  - unfold keys. by rewrite map_app.
Qed.

Lemma find_product_first_match (st : state) (ps : list Product.t) (l : json) (t : string) :
  find_product_and_add_to_result debug_mode st ps l t =
  match first_match ps t with
  | Some p => (add_to_result debug_mode st p l, true)
  | None => (st, false)
  end.
Proof.
  unfold first_match. induction ps as [|p ps IH]; simpl; [reflexivity|].
  destruct (Re.search (Product.whole_model_re p) t); [reflexivity | exact IH].
Qed.

Lemma families_loop_find (st : state) (fs : list Family.t) (l : json) (t : string) :
  families_loop debug_mode st fs l t =
  match find (family_resolves t) fs with
  | Some f => find_product_and_add_to_result debug_mode st (Family.products f) l t
  | None => (st, false)
  end.
Proof.
  induction fs as [|f fs IH]; simpl; [reflexivity|].
  unfold family_resolves at 1.
  destruct (contains (Family.name f) t); simpl; [|exact IH].
  rewrite find_product_first_match.
  destruct (first_match (Family.products f) t) as [p|] eqn:Hp.
  - rewrite bool_decide_eq_true_2 by eauto.
    by rewrite find_product_first_match, Hp.
  - rewrite bool_decide_eq_false_2 by (intros [? ?]; discriminate). exact IH.
Qed.

Lemma match_in_manufacturer_resolve (st : state) (m : Manufacturer.t) (l : json) (t : string) :
  match_in_manufacturer debug_mode st (Some m) l t =
  match resolve_product m t with
  | Some p => add_to_result debug_mode st p l
  | None => without_product debug_mode st l
  end.
Proof.
  unfold match_in_manufacturer, resolve_product, without_product.
  rewrite families_loop_find.
  destruct (find (family_resolves t) (Manufacturer.families m)) as [f|] eqn:Hf.
  - apply find_some in Hf as [_ Hf]. unfold family_resolves in Hf.
    apply andb_true_iff in Hf as [_ Hf]. apply bool_decide_eq_true in Hf as [p Hp].
    rewrite find_product_first_match, Hp. reflexivity.
  - rewrite find_product_first_match.
    destruct (first_match (Manufacturer.orphans_products m) t); simpl; [reflexivity|].
    by destruct debug_mode, st.
Qed.
End Aggregation.

Section Listings.
Variable debug_mode : bool.
Variable manufacturers : list Manufacturer.t.

Lemma match_listing_outcome (st st' : state) (listing : json) :
  match_listing debug_mode manufacturers st listing = Done st' ->
  match listing_product manufacturers listing with
  | Some p => st' = add_to_result debug_mode st p listing
  | None => matches st' = matches st /\ matches_count st' = matches_count st
  end.
Proof.
  unfold match_listing, listing_product, listing_manufacturer, getitem.
  destruct (listing !! "manufacturer") as [man|]; simpl; [|discriminate].
  destruct (listing !! "title") as [title|]; simpl; [|discriminate].
  intros [= <-].
  destruct (find_manufacturer manufacturers (normalize_str man)) as [m|].
  - rewrite match_in_manufacturer_resolve.
    destruct (resolve_product m (normalize_str title)); [reflexivity|].
    unfold without_product. by destruct debug_mode.
  - simpl. by destruct debug_mode.
Qed.

Lemma match_listing_extends (st st' : state) (listing : json) (k : string) (v : list json) :
  match_listing debug_mode manufacturers st listing = Done st' ->
  dict_get (matches st) k = Some v ->
  exists v', dict_get (matches st') k = Some (v ++ v').
Proof.
  intros Hstep Hk. apply match_listing_outcome in Hstep.
  destruct (listing_product manufacturers listing) as [p|].
  - subst st'. rewrite add_to_result_get, Hk. simpl.
    destruct (String.eqb (Product.name p) k); [by eexists|].
    exists []. by rewrite app_nil_r.
  - destruct Hstep as [-> _]. exists []. by rewrite app_nil_r.
Qed.

Lemma match_loop_extends (lines : list json) (st st' : state) (k : string) (v : list json) :
  match_loop debug_mode manufacturers st lines = Done st' ->
  dict_get (matches st) k = Some v ->
  exists v', dict_get (matches st') k = Some (v ++ v').
Proof.
  revert st v. induction lines as [|l lines IH]; simpl; intros st v Hrun Hk.
  - injection Hrun as <-. exists []. by rewrite app_nil_r.
  - destruct (match_listing debug_mode manufacturers st l) as [st1| |] eqn:Hstep;
      simpl in Hrun; try discriminate.
    destruct (match_listing_extends _ _ _ _ _ Hstep Hk) as [v1 Hk1].
    destruct (IH _ _ Hrun Hk1) as [v2 Hk2].
    exists (v1 ++ v2). by rewrite app_assoc.
Qed.
End Listings.

(** *** The order on strings, sorting and binary search *)

Lemma midpoint_bounds (lo hi : nat) : lo < hi -> lo <= (lo + hi) / 2 < hi.
Proof.
  intros Hlt; split.
  - apply Nat.div_le_lower_bound; lia.
  - apply Nat.Div0.div_lt_upper_bound; lia.
Qed.

Lemma str_lt_irrefl (a : string) : str_lt a a = false.
Proof.
  unfold str_lt, String.ltb.
  pose proof (proj2 (OrderedTypeEx.String_as_OT.cmp_eq a a) eq_refl) as Haa.
  unfold OrderedTypeEx.String_as_OT.cmp in Haa. by rewrite Haa.
Qed.

Lemma str_lt_trans (a b c : string) :
  str_lt a b = true -> str_lt b c = true -> str_lt a c = true.
Proof.
  unfold str_lt, String.ltb. intros Hab Hbc.
  destruct (String.compare a b) eqn:Eab; try discriminate.
  destruct (String.compare b c) eqn:Ebc; try discriminate.
  apply OrderedTypeEx.String_as_OT.cmp_lt in Eab, Ebc.
  pose proof (OrderedTypeEx.String_as_OT.lt_trans _ _ _ Eab Ebc) as Hac.
  apply OrderedTypeEx.String_as_OT.cmp_lt in Hac.
  unfold OrderedTypeEx.String_as_OT.cmp in Hac. by rewrite Hac.
Qed.

Lemma str_lt_asym (a b : string) : str_lt a b = true -> str_lt b a = false.
Proof.
  intros Hab. destruct (str_lt b a) eqn:Hba; [|reflexivity].
  pose proof (str_lt_trans _ _ _ Hab Hba) as Haa.
  by rewrite str_lt_irrefl in Haa.
Qed.

Lemma str_lt_total (a b : string) :
  str_lt a b = false -> str_lt b a = false -> a = b.
Proof.
  unfold str_lt, String.ltb. rewrite (String.compare_antisym b a).
  destruct (String.compare a b) eqn:E; simpl; try discriminate.
  intros _ _. by apply String.compare_eq_iff.
Qed.

(** [a <= b] and [b < c] give [a < c]. *)
Lemma str_le_lt_trans (a b c : string) :
  str_lt b a = false -> str_lt b c = true -> str_lt a c = true.
Proof.
  intros Hab Hbc. destruct (str_lt a b) eqn:Hlt.
  - by apply (str_lt_trans a b c).
  - by rewrite (str_lt_total a b Hlt Hab).
Qed.

Lemma str_lt_empty (a : string) : str_lt a "" = false.
Proof. by destruct a. Qed.

Section Ordered.
Context {A : Type} (less : A -> A -> bool).

Hypothesis less_asym : forall a b, less a b = true -> less b a = false.
Hypothesis less_le_trans : forall a b c,
  less b a = false -> less b c = true -> less a c = true.

Lemma sort_insert_perm (x : A) (l : list A) : Permutation (sort_insert less x l) (x :: l).
Proof.
  induction l as [|y l IH]; simpl; [reflexivity|].
  destruct (less x y); [reflexivity|].
  rewrite IH. apply perm_swap.
Qed.

Lemma sort_perm (l : list A) : Permutation (sort less l) l.
Proof.
  unfold sort. rewrite <- (app_nil_r l) at 2. generalize (@nil A) as acc.
  induction l as [|x l IH]; intros acc; simpl; [reflexivity|].
  rewrite IH, sort_insert_perm. by rewrite Permutation_middle.
Qed.

Lemma sort_insert_sorted (x : A) (l : list A) :
  StronglySorted (no_later less) l -> StronglySorted (no_later less) (sort_insert less x l).
Proof.
  induction 1 as [|y l Hl IH Hy]; simpl.
  - repeat constructor.
  - destruct (less x y) eqn:Hxy.
    + constructor; [by constructor|].
      constructor; [by apply less_asym|].
      eapply Forall_impl; [exact Hy|]. intros z Hyz. unfold no_later in *.
      destruct (less z x) eqn:Hzx; [|reflexivity].
      pose proof (less_le_trans y z x Hyz Hzx) as Hyx.
      by rewrite (less_asym _ _ Hxy) in Hyx.
    + constructor; [exact IH|].
      rewrite (sort_insert_perm x l). by constructor.
Qed.

Lemma sort_sorted (l : list A) : StronglySorted (no_later less) (sort less l).
Proof.
  unfold sort. assert (Hacc : StronglySorted (no_later less) (@nil A)) by constructor.
  revert Hacc. generalize (@nil A) as acc.
  induction l as [|x l IH]; intros acc Hacc; simpl; [exact Hacc|].
  apply IH. by apply sort_insert_sorted.
Qed.

(** In a sorted list, the entries below [x] come first. *)
Lemma sorted_below_prefix (a : list A) (x : A) (i j : nat) (ai aj : A) :
  StronglySorted (no_later less) a -> i <= j ->
  a !! i = Some ai -> a !! j = Some aj -> less aj x = true -> less ai x = true.
Proof.
  intros Hs. revert i j. induction Hs as [|y l Hl IH Hy]; intros i j Hij Hi Hj Hlt.
  - by rewrite lookup_nil in Hi.
  - destruct i as [|i], j as [|j]; simplify_eq/=; try lia.
    + done.
    + rewrite Forall_forall in Hy.
      apply (less_le_trans ai aj x); [|done].
      apply Hy. by eapply list_elem_of_lookup_2.
    + apply (IH i j); [lia|done..].
Qed.

Lemma bisect_loop_spec (a : list A) (x : A) (lo hi : nat) :
  StronglySorted (no_later less) a ->
  lo <= hi <= length a ->
  (forall j y, j < lo -> a !! j = Some y -> less y x = true) ->
  (forall j y, hi <= j -> a !! j = Some y -> less y x = false) ->
  insertion_point less a x (bisect_loop less a x lo hi).
Proof.
  intros Hs. funelim (bisect_loop less a x lo hi); intros Hb Hlo Hhi.
  all: try match goal with
           | Hlt : ?l < ?h |- _ => pose proof (midpoint_bounds l h Hlt) as Hmid
           end.
  - (* the loop is over *)
    assert (lo = hi) by lia. subst hi. split; [lia|]. by split.
  - (* a[mid] out of range: impossible *)
    match goal with Hn : _ !! _ = None |- _ => apply lookup_ge_None in Hn end. lia.
  - (* a[mid] < x *)
    match goal with
    | IH : _ -> _ -> _ -> _ -> insertion_point _ _ _ _ |- _ => apply IH; clear IH
    end; [done | lia | | done].
    intros j y Hj Hjy.
    destruct (decide (j < lo)) as [|Hge]; [by eapply Hlo|].
    match goal with
    | Ham : a !! ?mid = Some ?m, Hless : less ?m x = true |- _ =>
        apply (sorted_below_prefix a x j mid y m Hs); [lia | done | exact Ham | exact Hless]
    end.
  - (* not a[mid] < x *)
    match goal with
    | IH : _ -> _ -> _ -> _ -> insertion_point _ _ _ _ |- _ => apply IH; clear IH
    end; [done | lia | done | ].
    intros j y Hj Hjy.
    destruct (decide (hi <= j)) as [|Hlt]; [by eapply Hhi|].
    destruct (less y x) eqn:Hyx; [|reflexivity].
    match goal with
    | Ham : a !! ?mid = Some ?m, Hless : less ?m x = false |- _ =>
        assert (less m x = true)
          by (apply (sorted_below_prefix a x mid j m y Hs); [lia | exact Ham | done | done]);
        congruence
    end.
Qed.

Lemma bisect_left_insertion_point (a : list A) (x : A) :
  StronglySorted (no_later less) a -> insertion_point less a x (bisect_left less a x).
Proof.
  intros Hs. apply bisect_loop_spec; [done|lia| |].
  - intros j y Hj. lia.
  - intros j y Hj Hjy. apply lookup_lt_Some in Hjy. lia.
Qed.
End Ordered.

(** *** Containment *)

Lemma append_cons (c : ascii) (s t : string) : String c s +:+ t = String c (s +:+ t).
Proof. reflexivity. Qed.

Lemma append_empty_l (t : string) : "" +:+ t = t.
Proof. reflexivity. Qed.

Lemma startswith_spec (p s : string) :
  startswith p s = true <-> exists r, s = p +:+ r.
Proof.
  revert s. induction p as [|a p IH]; intros s; simpl.
  - split; [intros _; by exists s | done].
  - destruct s as [|b s].
    + split; [discriminate | intros [r Hr]; by rewrite append_cons in Hr].
    + destruct (Ascii.eqb_spec a b) as [->|Hne].
      * rewrite IH. split; intros [r Hr]; exists r.
        -- by rewrite append_cons, Hr.
        -- rewrite append_cons in Hr. by injection Hr.
      * split; [discriminate|]. intros [r Hr].
        rewrite append_cons in Hr. injection Hr as -> _. done.
Qed.

Lemma contains_spec (s t : string) : contains s t = true <-> substring s t.
Proof.
  unfold substring. induction t as [|c t IH].
  - simpl. rewrite orb_false_r, startswith_spec. split.
    + intros [r Hr]. by exists "", r.
    + intros [[|a l] [r Hr]]; [by exists r|]. by rewrite append_cons in Hr.
  - cbn [contains]. rewrite orb_true_iff, startswith_spec, IH. split.
    + intros [[r Hr]|[l [r Hr]]].
      * by exists "", r.
      * exists (String c l), r. by rewrite append_cons, Hr.
    + intros [[|a l] [r Hr]].
      * left. by exists r.
      * right. rewrite append_cons in Hr. injection Hr as -> ->. by exists l, r.
Qed.

Lemma contains_empty (t : string) : contains "" t = true.
Proof. by destruct t. Qed.

(** *** Manufacturer resolution *)

Lemma manufacturer_lt_asym (a b : Manufacturer.t) :
  Manufacturer.lt a b = true -> Manufacturer.lt b a = false.
Proof. apply str_lt_asym. Qed.

Lemma manufacturer_le_lt_trans (a b c : Manufacturer.t) :
  Manufacturer.lt b a = false -> Manufacturer.lt b c = true -> Manufacturer.lt a c = true.
Proof. apply str_le_lt_trans. Qed.

Lemma candidate_spec (ms : list Manufacturer.t) (n : string) (i : nat) (m : Manufacturer.t) :
  candidate ms n i = Some m <-> ms !! i = Some m /\ substring n (Manufacturer.name m).
Proof.
  unfold candidate. destruct (ms !! i) as [m'|]; [|split; [done | by intros [? _]]].
  destruct (contains n (Manufacturer.name m')) eqn:Hc.
  - apply contains_spec in Hc. split; [by intros [= <-] | by intros [[= <-] _]].
  - split; [done|]. intros [[= <-] Hs]. apply contains_spec in Hs. congruence.
Qed.

Lemma candidate_none (ms : list Manufacturer.t) (n : string) (i : nat) :
  candidate ms n i = None <->
  forall m, ms !! i = Some m -> ~ substring n (Manufacturer.name m).
Proof.
  split.
  - intros Hnone m Hm Hs.
    assert (candidate ms n i = Some m) by (by apply candidate_spec). congruence.
  - intros Hno. destruct (candidate ms n i) as [m|] eqn:Hc; [|done].
    apply candidate_spec in Hc as [Hm Hs]. by destruct (Hno m Hm).
Qed.

(** C2: for a listing, the manufacturer is looked up under the
    normalized name [n] of the listing.  On a sorted index, the index
    [i] computed by the binary search is the insertion point of [n].  The
    manufacturer at [i] is selected when [i] is in range and [n] is a
    substring of its name; otherwise the one at [i - 1] is, when there is
    one and [n] is a substring of its name; otherwise none is, so that
    resolution succeeds exactly when one of the two contains [n].  When
    none is selected the listing leaves the matches as they were (in
    debug mode it is noted as without manufacturer): nothing is looked
    up in any family or product list.  With "sony" and "sony ericsson"
    in the index, "sony" resolves to "sony". *)
Theorem manufacturer_resolution
    (debug_mode : bool) (manufacturers : list Manufacturer.t) (st : state)
    (listing : json) (name title : string) :
  StronglySorted (no_later Manufacturer.lt) manufacturers ->
  listing !! "manufacturer" = Some name ->
  listing !! "title" = Some title ->
  let n := normalize_str name in
  let i := bisect_left Manufacturer.lt manufacturers (Manufacturer.new n) in
  (i <= length manufacturers /\
   (forall j m, j < i -> manufacturers !! j = Some m -> str_lt (Manufacturer.name m) n = true) /\
   (forall j m, i <= j -> manufacturers !! j = Some m -> str_lt (Manufacturer.name m) n = false)) /\
  (forall m, manufacturers !! i = Some m -> substring n (Manufacturer.name m) ->
     find_manufacturer manufacturers n = Some m) /\
  (forall m', (forall m, manufacturers !! i = Some m -> ~ substring n (Manufacturer.name m)) ->
     0 < i -> manufacturers !! (i - 1) = Some m' -> substring n (Manufacturer.name m') ->
     find_manufacturer manufacturers n = Some m') /\
  (is_Some (find_manufacturer manufacturers n) <->
     (exists m, manufacturers !! i = Some m /\ substring n (Manufacturer.name m)) \/
     (0 < i /\ exists m', manufacturers !! (i - 1) = Some m' /\
                          substring n (Manufacturer.name m'))) /\
  (find_manufacturer manufacturers n = None ->
     match_listing debug_mode manufacturers st listing
       = Done (without_manufacturer debug_mode st listing) /\
     matches (without_manufacturer debug_mode st listing) = matches st) /\
  (forall m1 m2, Manufacturer.name m1 = "sony" -> Manufacturer.name m2 = "sony ericsson" ->
     find_manufacturer [m1; m2] "sony" = Some m1).
Proof.
  intros Hsorted Hman Htitle n i.
  assert (Hfind : find_manufacturer manufacturers n =
                  match candidate manufacturers n i with
                  | Some m => Some m
                  | None => match i with
                            | O => None
                            | S before => candidate manufacturers n before
                            end
                  end) by reflexivity.
  split; [|split; [|split; [|split; [|split]]]].
  - pose proof (bisect_left_insertion_point Manufacturer.lt
                  manufacturer_le_lt_trans manufacturers (Manufacturer.new n) Hsorted)
      as (Hlen & Hbelow & Hfrom).
    fold i in Hlen, Hbelow, Hfrom.
    assert (Hkey : Manufacturer.name (Manufacturer.new n) = n)
      by apply lower_idempotent.
    unfold Manufacturer.lt in Hbelow, Hfrom. rewrite Hkey in Hbelow, Hfrom.
    by repeat split.
  - intros m Hm Hs. rewrite Hfind.
    by rewrite (proj2 (candidate_spec manufacturers n i m) (conj Hm Hs)).
  - intros m' Hno Hpos Hm' Hs. rewrite Hfind.
    rewrite (proj2 (candidate_none manufacturers n i) Hno).
    destruct i as [|before]; [lia|].
    replace (S before - 1) with before in Hm' by lia.
    by apply candidate_spec.
  - rewrite Hfind. split.
    + destruct (candidate manufacturers n i) as [m|] eqn:Hc.
      * intros _. left. exists m. by apply candidate_spec.
      * destruct i as [|before]; [by intros [? ?]|].
        intros [m' Hc']. right. split; [lia|]. exists m'.
        replace (S before - 1) with before by lia. by apply candidate_spec.
    + intros [[m Hm]|[Hpos [m' Hm']]].
      * apply candidate_spec in Hm. by rewrite Hm.
      * destruct (candidate manufacturers n i) as [m|]; [done|].
        destruct i as [|before]; [lia|].
        replace (S before - 1) with before in Hm' by lia.
        apply candidate_spec in Hm'. by rewrite Hm'.
  - intros Hnone. split; [|by destruct debug_mode].
    unfold match_listing, getitem. rewrite Hman, Htitle. simpl.
    fold n. by rewrite Hnone.
  - intros [n1 ps1 fs1 os1] [n2 ps2 fs2 os2]; simpl; intros -> ->. reflexivity.
Qed.

(** *** The catalog index *)

Lemma prepare_product_done (ms ms' : list Manufacturer.t) (r : json) :
  prepare_product ms r = Done ms' ->
  exists man p base i m0,
    r !! "manufacturer" = Some man /\ built_from r p /\
    (base = ms \/ base = ms ++ [Manufacturer.new (normalize_str man)]) /\
    base !! i = Some m0 /\
    Manufacturer.name m0 = normalize_str man /\
    ms' = <[i := Manufacturer.add_product m0 p]> base.
Proof.
  unfold prepare_product, getitem.
  destruct (r !! "manufacturer") as [man|] eqn:Hman; simpl; [|discriminate].
  destruct (list_find _ ms) as [[i m0]|] eqn:Hfind;
    (destruct (r !! "product_name") as [pn|] eqn:Hpn; simpl; [|discriminate];
     destruct (r !! "model") as [mo|] eqn:Hmo; simpl; [|discriminate];
     destruct (Product.new pn (r !! "family") mo) as [p| |] eqn:Hp; simpl;
       try discriminate; intros [= <-]).
  - apply list_find_Some in Hfind as (Hi & Hname & _).
    exists man, p, ms, i, m0. repeat split; try done.
    + by exists pn, mo.
    + by left.
    + apply list_eq. intros j. rewrite list_lookup_alter, list_lookup_insert.
      destruct (decide (i = j)) as [<-|]; [|by rewrite decide_False by tauto].
      rewrite Hi. simpl. rewrite decide_True; [done|].
      split; [done|]. by eapply lookup_lt_Some.
  - exists man, p, (ms ++ [Manufacturer.new (normalize_str man)]), (length ms),
      (Manufacturer.new (normalize_str man)).
    repeat split; try done.
    + by exists pn, mo.
    + by right.
    + by rewrite lookup_app_r, Nat.sub_diag by lia.
    + apply lower_idempotent.
    + apply list_eq. intros j. rewrite list_lookup_alter, list_lookup_insert.
      destruct (decide (length ms = j)) as [<-|]; [|by rewrite decide_False by tauto].
      rewrite lookup_app_r, Nat.sub_diag by lia. simpl.
      rewrite decide_True; [done|]. split; [done|]. rewrite length_app. simpl. lia.
Qed.

Lemma prepare_product_length (ms ms' : list Manufacturer.t) (r : json) :
  prepare_product ms r = Done ms' -> 0 < length ms' /\ length ms <= length ms'.
Proof.
  intros (man & p & base & i & m0 & _ & _ & Hbase & Hi & _ & ->)%prepare_product_done.
  rewrite length_insert. apply lookup_lt_Some in Hi.
  destruct Hbase as [->| ->]; [lia|]. rewrite length_app in *. simpl in *. lia.
Qed.

Lemma prepare_loop_length (lines : list json) (ms ms' : list Manufacturer.t) :
  prepare_loop ms lines = Done ms' ->
  length ms <= length ms' /\ (lines <> [] -> 0 < length ms').
Proof.
  revert ms. induction lines as [|r lines IH]; simpl; intros ms Hrun.
  - injection Hrun as <-. by split.
  - destruct (prepare_product ms r) as [ms1| |] eqn:Hstep; simpl in Hrun; try discriminate.
    apply prepare_product_length in Hstep. apply IH in Hrun as [Hle _]. lia.
Qed.

Section Provenance.
Variable P : Product.t -> Prop.

Lemma add_to_family_all (fs : list Family.t) (family : string) (p : Product.t) :
  P p -> Forall (fun f => Forall P (Family.products f)) fs ->
  Forall (fun f => Forall P (Family.products f)) (Manufacturer.add_to_family fs family p).
Proof.
  intros Hp Hfs. unfold Manufacturer.add_to_family.
  destruct (list_find _ fs) as [[i f]|] eqn:Hfind.
  - apply list_find_Some in Hfind as (Hi & _).
    apply Forall_insert; [done|]. simpl. apply Forall_app. split; [|by constructor].
    rewrite Forall_forall in Hfs. apply Hfs. by eapply list_elem_of_lookup_2.
  - apply Forall_app. split; [done|]. by repeat constructor.
Qed.

Lemma add_product_all (m : Manufacturer.t) (p : Product.t) :
  P p ->
  Forall P (Manufacturer.orphans_products m) /\
  Forall (fun f => Forall P (Family.products f)) (Manufacturer.families m) ->
  Forall P (Manufacturer.orphans_products (Manufacturer.add_product m p)) /\
  Forall (fun f => Forall P (Family.products f))
         (Manufacturer.families (Manufacturer.add_product m p)).
Proof.
  intros Hp [Ho Hf]. unfold Manufacturer.add_product.
  destruct (Product.family p); simpl.
  - split; [done|]. by apply add_to_family_all.
  - split; [|done]. apply Forall_app. split; [done|]. by constructor.
Qed.

Lemma prepare_product_all (ms ms' : list Manufacturer.t) (r : json) :
  (forall p, built_from r p -> P p) ->
  prepare_product ms r = Done ms' -> all_products P ms -> all_products P ms'.
Proof.
  intros Hr (man & p & base & i & m0 & _ & Hp & Hbase & Hi & _ & ->)%prepare_product_done Hms.
  assert (Hall : all_products P base).
  { destruct Hbase as [->| ->]; [done|].
    apply Forall_app. split; [done|]. by repeat constructor. }
  apply Forall_insert; [done|]. apply add_product_all; [by apply Hr|].
  unfold all_products in Hall. rewrite Forall_forall in Hall.
  apply Hall. by eapply list_elem_of_lookup_2.
Qed.

Lemma prepare_loop_all (lines : list json) (ms ms' : list Manufacturer.t) :
  (forall r p, r ∈ lines -> built_from r p -> P p) ->
  prepare_loop ms lines = Done ms' -> all_products P ms -> all_products P ms'.
Proof.
  revert ms. induction lines as [|r lines IH]; simpl; intros ms Hlines Hrun Hms.
  - by injection Hrun as <-.
  - destruct (prepare_product ms r) as [ms1| |] eqn:Hstep; simpl in Hrun; try discriminate.
    apply (IH ms1); [|done|].
    + intros r' p Hr'. apply Hlines. by right.
    + eapply prepare_product_all; [|done..]. intros p. apply Hlines. by left.
Qed.

Lemma prepare_products_data_all (lines : list json) (ms : list Manufacturer.t) :
  (forall r p, r ∈ lines -> built_from r p -> P p) ->
  prepare_products_data lines = Done ms -> all_products P ms.
Proof.
  unfold prepare_products_data. intros Hlines.
  destruct (prepare_loop [] lines) as [ms0| |] eqn:Hrun; simpl; try discriminate.
  intros [= <-]. unfold all_products.
  rewrite (sort_perm Manufacturer.lt ms0).
  by apply (prepare_loop_all lines [] ms0); [| |constructor].
Qed.
End Provenance.

Lemma prepare_products_data_sorted (lines : list json) (ms : list Manufacturer.t) :
  prepare_products_data lines = Done ms ->
  StronglySorted (no_later Manufacturer.lt) ms /\ (lines <> [] -> ms <> []).
Proof.
  unfold prepare_products_data.
  destruct (prepare_loop [] lines) as [ms0| |] eqn:Hrun; simpl; try discriminate.
  intros [= <-]. split.
  - apply sort_sorted; [apply manufacturer_lt_asym | apply manufacturer_le_lt_trans].
  - intros Hne Hnil. apply prepare_loop_length in Hrun as [_ Hpos].
    specialize (Hpos Hne).
    pose proof (Permutation_length (sort_perm Manufacturer.lt ms0)) as Hlen.
    rewrite Hnil in Hlen. simpl in Hlen. lia.
Qed.

Lemma bisect_loop_nothing_below {A} (less : A -> A -> bool) (a : list A) (x : A) (lo hi : nat) :
  (forall y, less y x = false) -> bisect_loop less a x lo hi = lo.
Proof.
  intros Hx. funelim (bisect_loop less a x lo hi); try reflexivity.
  - match goal with H : less _ x = true |- _ => rewrite Hx in H; discriminate end.
  - match goal with IH : _ -> bisect_loop _ _ _ _ _ = _ |- _ => by apply IH end.
Qed.

Lemma match_listing_total (debug_mode : bool) (ms : list Manufacturer.t) (st : state)
    (listing : json) (name title : string) :
  listing !! "manufacturer" = Some name -> listing !! "title" = Some title ->
  match_listing debug_mode ms st listing =
  Done (match_in_manufacturer debug_mode st (find_manufacturer ms (normalize_str name))
                              listing (normalize_str title)).
Proof. intros Hman Htitle. unfold match_listing, getitem. by rewrite Hman, Htitle. Qed.

(** C10: on the index of a catalog that is not empty, a listing whose
    manufacturer string normalizes to the empty string always gets a
    manufacturer: the binary search stops at index 0, the empty string
    is contained in the name found there, and that name is the smallest
    of the index; the listing is never put among those without
    manufacturer. *)
Theorem empty_manufacturer_resolves_to_smallest
    (debug_mode : bool) (lines : list json) (manufacturers : list Manufacturer.t)
    (st : state) (listing : json) (name title : string) :
  prepare_products_data lines = Done manufacturers ->
  lines <> [] ->
  listing !! "manufacturer" = Some name ->
  listing !! "title" = Some title ->
  normalize_str name = "" ->
  bisect_left Manufacturer.lt manufacturers (Manufacturer.new (normalize_str name)) = 0 /\
  exists m,
    manufacturers !! 0 = Some m /\
    substring (normalize_str name) (Manufacturer.name m) /\
    listing_manufacturer manufacturers listing = Some m /\
    (forall m', m' ∈ manufacturers ->
       str_lt (Manufacturer.name m') (Manufacturer.name m) = false) /\
    exists st',
      match_listing debug_mode manufacturers st listing = Done st' /\
      non_matched_manufacturer st' = non_matched_manufacturer st.
Proof.
  intros Hprep Hne Hman Htitle Hempty.
  apply prepare_products_data_sorted in Hprep as [Hsorted Hnonempty].
  specialize (Hnonempty Hne).
  destruct manufacturers as [|m ms]; [done|]. rewrite Hempty.
  assert (Hzero : bisect_left Manufacturer.lt (m :: ms) (Manufacturer.new "") = 0).
  { apply bisect_loop_nothing_below. intros y. apply str_lt_empty. }
  assert (Hfind : find_manufacturer (m :: ms) "" = Some m).
  { unfold find_manufacturer. rewrite Hzero. unfold candidate. simpl.
    by rewrite contains_empty. }
  split; [exact Hzero|]. exists m. repeat split.
  - apply contains_spec, contains_empty.
  - unfold listing_manufacturer. by rewrite Hman, Hempty.
  - intros m' [->|Hin]%elem_of_cons; [apply str_lt_irrefl|].
    apply StronglySorted_inv in Hsorted as [_ Hall].
    rewrite Forall_forall in Hall. by apply Hall.
  - rewrite (match_listing_total _ _ _ _ name title Hman Htitle), Hempty, Hfind.
    eexists. split; [reflexivity|].
    rewrite match_in_manufacturer_resolve.
    destruct (resolve_product m (normalize_str title)); [reflexivity|].
    unfold without_product. by destruct debug_mode.
Qed.

(** *** Errors *)

Lemma prepare_product_missing (ms : list Manufacturer.t) (r : json) :
  missing_required r -> exists key, prepare_product ms r = Raise (KeyError key).
Proof.
  unfold prepare_product, getitem. intros Hmiss.
  destruct (r !! "manufacturer") as [man|] eqn:Hman; simpl; [|by eexists].
  destruct (list_find _ ms) as [[i m0]|];
    (destruct (r !! "product_name") as [pn|] eqn:Hpn; simpl; [|by eexists];
     destruct (r !! "model") as [mo|] eqn:Hmo; simpl; [|by eexists];
     destruct Hmiss as [|[|]]; congruence).
Qed.

Lemma prepare_product_in_fragment (ms : list Manufacturer.t) (r : json) :
  in_fragment r -> prepare_product ms r <> Unmodelled.
Proof.
  unfold prepare_product, getitem, in_fragment. intros Hfrag.
  destruct (r !! "manufacturer") as [man|]; simpl; [|done].
  destruct (list_find _ ms) as [[i m0]|];
    (destruct (r !! "product_name") as [pn|]; simpl; [|done];
     destruct (r !! "model") as [mo|]; simpl; [|done];
     specialize (Hfrag mo eq_refl); rewrite product_new_spec;
     destruct (encodable (normalize_str mo)); [|done];
     by destruct (Re.compile (Product.pattern (normalize_str mo)))).
Qed.

Lemma prepare_loop_missing (lines : list json) (ms : list Manufacturer.t) (r : json) :
  r ∈ lines -> missing_required r ->
  (forall ms', prepare_loop ms lines <> Done ms') /\
  ((forall r', r' ∈ lines -> in_fragment r') -> exists e, prepare_loop ms lines = Raise e).
Proof.
  revert ms. induction lines as [|r0 lines IH]; intros ms Hin Hmiss; [by inversion Hin|].
  simpl. apply elem_of_cons in Hin as [<-|Hin].
  - destruct (prepare_product_missing ms r Hmiss) as [key ->]. simpl.
    split; [done | by eexists].
  - pose proof (prepare_product_in_fragment ms r0) as Hfrag0.
    destruct (prepare_product ms r0) as [ms1|e|]; simpl.
    + destruct (IH ms1 Hin Hmiss) as [Hnot Hraise]. split; [done|].
      intros Hfrag. apply Hraise. intros r' Hr'. apply Hfrag. by right.
    + split; [done | by eexists].
    + split; [done|]. intros Hfrag. destruct Hfrag0; [|done]. apply Hfrag. by left.
Qed.

Lemma prepare_product_family_irrelevant (ms : list Manufacturer.t) (r : json) (family : string) :
  r !! "family" = None ->
  (exists ms1, prepare_product ms r = Done ms1) <->
  (exists ms2, prepare_product ms (<["family" := family]> r) = Done ms2).
Proof.
  intros Hnone. unfold prepare_product, getitem.
  rewrite !lookup_insert_ne by done.
  destruct (r !! "manufacturer") as [man|]; simpl; [|done].
  destruct (list_find _ ms) as [[i m0]|];
    (destruct (r !! "product_name") as [pn|]; simpl; [|done];
     destruct (r !! "model") as [mo|]; simpl; [|done];
     rewrite !product_new_spec;
     destruct (encodable (normalize_str mo)); simpl;
       [|split; intros [? ?]; discriminate];
     destruct (Re.compile (Product.pattern (normalize_str mo))); simpl;
     split; intros [? ?]; by eauto).
Qed.

(** C6: building the index from a catalog with a record that lacks the
    manufacturer, the model or the display name does not produce an
    index: it raises (once the patterns of the records are in the
    modelled fragment, where the outcome is known).  The absence of the
    family alone is not an error: whether a record without family is
    accepted does not change when a family is added to it, and when its
    model is ASCII text whose pattern compiles (what [Product] asks of
    every record, with or without family) it is accepted and its product
    is appended to the orphan list of its manufacturer, the families
    being left as they are.  A listing that has a manufacturer and a
    title never makes the matching raise, whatever it resolves to. *)
Theorem catalog_errors_and_orphans :
  (forall lines r, r ∈ lines -> missing_required r ->
     (forall ms, prepare_products_data lines <> Done ms) /\
     ((forall r', r' ∈ lines -> in_fragment r') ->
        exists e, prepare_products_data lines = Raise e)) /\
  (forall ms r family, r !! "family" = None ->
     (exists ms1, prepare_product ms r = Done ms1) <->
     (exists ms2, prepare_product ms (<["family" := family]> r) = Done ms2)) /\
  (forall ms r man product_name model re,
     r !! "manufacturer" = Some man ->
     r !! "product_name" = Some product_name ->
     r !! "model" = Some model ->
     r !! "family" = None ->
     encodable (normalize_str model) = true ->
     Re.compile (Product.pattern (normalize_str model)) = Re.Compiled re ->
     let p := Product.Make (normalize_str product_name) None (normalize_str model) re in
     exists base i m0,
       (base = ms \/ base = ms ++ [Manufacturer.new (normalize_str man)]) /\
       base !! i = Some m0 /\
       Manufacturer.name m0 = normalize_str man /\
       prepare_product ms r =
         Done (<[i := Manufacturer.Make (Manufacturer.name m0)
                        (Manufacturer.products m0 ++ [p])
                        (Manufacturer.families m0)
                        (Manufacturer.orphans_products m0 ++ [p])]> base)) /\
  (forall debug_mode ms st listing man title,
     listing !! "manufacturer" = Some man -> listing !! "title" = Some title ->
     exists st', match_listing debug_mode ms st listing = Done st') /\
  (forall debug_mode ms lines,
     (forall listing, listing ∈ lines ->
        is_Some (listing !! "manufacturer") /\ is_Some (listing !! "title")) ->
     exists st', match_listings debug_mode ms lines = Done st').
Proof.
  split; [|split; [|split; [|split]]].
  - intros lines r Hin Hmiss. unfold prepare_products_data.
    destruct (prepare_loop_missing lines [] r Hin Hmiss) as [Hnot Hraise].
    split.
    + intros ms. destruct (prepare_loop [] lines) as [ms0| |] eqn:Hrun; simpl; try done.
      by destruct (Hnot ms0).
    + intros Hfrag. destruct (Hraise Hfrag) as [e ->]. by exists e.
  - apply prepare_product_family_irrelevant.
  - intros ms r man pn mo re Hman Hpn Hmo Hfam Henc Hre p.
    destruct (prepare_product ms r) as [ms'| |] eqn:Hstep.
    + pose proof Hstep as
        (man' & p' & base & i & m0 & Hman' & Hp' & Hbase & Hi & Hname & ->)%prepare_product_done.
      destruct Hp' as (pn' & mo' & Hpn' & Hmo' & Hnew).
      assert (man' = man) as -> by congruence.
      assert (pn' = pn) as -> by congruence.
      assert (mo' = mo) as -> by congruence.
      rewrite product_new_spec, Henc, Hre, Hfam in Hnew. simpl in Hnew.
      injection Hnew as <-. fold p.
      exists base, i, m0. repeat split; try done.
    + exfalso. revert Hstep. unfold prepare_product, getitem.
      rewrite Hman, Hpn, Hmo. simpl. rewrite product_new_spec, Henc, Hre. simpl.
      by destruct (list_find _ ms) as [[? ?]|].
    + exfalso. revert Hstep. unfold prepare_product, getitem.
      rewrite Hman, Hpn, Hmo. simpl. rewrite product_new_spec, Henc, Hre. simpl.
      by destruct (list_find _ ms) as [[? ?]|].
  - intros debug_mode ms st listing man title Hman Htitle.
    rewrite (match_listing_total _ _ _ _ man title Hman Htitle). by eexists.
  - intros debug_mode ms lines. unfold match_listings. generalize initial as st.
    induction lines as [|l lines IH]; intros st Hok; simpl; [by eexists|].
    destruct (Hok l) as [[man Hman] [title Htitle]]; [by left|].
    rewrite (match_listing_total _ _ _ _ man title Hman Htitle). simpl.
    apply IH. intros l' Hl'. apply Hok. by right.
Qed.

(** *** Families before orphans *)

Lemma find_first {A} (p : A -> bool) (l : list A) (x : A) :
  find p l = Some x ->
  exists i, l !! i = Some x /\ p x = true /\
            forall j y, j < i -> l !! j = Some y -> p y = false.
Proof.
  induction l as [|a l IH]; simpl; [discriminate|].
  destruct (p a) eqn:Hpa.
  - intros [= <-]. exists 0. repeat split; [done|]. intros j y Hj. lia.
  - intros (i & Hi & Hpx & Hbefore)%IH. exists (S i). repeat split; [done..|].
    intros [|j] y Hj Hy; simpl in Hy; [by injection Hy as <-|].
    apply (Hbefore j); [lia|done].
Qed.

Lemma find_nothing {A} (p : A -> bool) (l : list A) :
  find p l = None <-> forall x, x ∈ l -> p x = false.
Proof.
  induction l as [|a l IH]; simpl.
  - split; [intros _ x Hx; inversion Hx | done].
  - destruct (p a) eqn:Hpa.
    + split; [done|]. intros Hall. rewrite Hall in Hpa; [done | by left].
    + rewrite IH. split.
      * intros Hall x [->|Hx]%elem_of_cons; [done | by apply Hall].
      * intros Hall x Hx. apply Hall. by right.
Qed.

Lemma family_resolves_spec (debug_mode : bool) (st : state) (l : json) (t : string)
    (f : Family.t) :
  family_resolves t f = true <->
  substring (Family.name f) t /\
  (find_product_and_add_to_result debug_mode st (Family.products f) l t).2 = true.
Proof.
  unfold family_resolves. rewrite andb_true_iff, contains_spec, find_product_first_match.
  rewrite bool_decide_eq_true.
  destruct (first_match (Family.products f) t); simpl.
  - split; intros [? _]; eauto.
  - split; intros [? H]; [by destruct H | done].
Qed.

Lemma add_to_family_names (fs : list Family.t) (family : string) (p : Product.t) :
  Family.name <$> Manufacturer.add_to_family fs family p =
  if decide (normalize_str family ∈ Family.name <$> fs)
  then Family.name <$> fs
  else (Family.name <$> fs) ++ [normalize_str family].
Proof.
  unfold Manufacturer.add_to_family.
  destruct (list_find _ fs) as [[i f]|] eqn:Hfind.
  - apply list_find_Some in Hfind as (Hi & Hname & _).
    rewrite decide_True.
    + rewrite list_fmap_insert. simpl. apply list_insert_id.
      by rewrite list_lookup_fmap, Hi.
    + rewrite <- Hname. apply list_elem_of_fmap. exists f.
      split; [done | by eapply list_elem_of_lookup_2].
  - rewrite list_find_None in Hfind. rewrite decide_False.
    + rewrite fmap_app. simpl. unfold normalize_str. by rewrite lower_idempotent.
    + intros (f & Hname & Hin)%list_elem_of_fmap.
      rewrite Forall_forall in Hfind. by destruct (Hfind f Hin).
Qed.

(** C3: within the manufacturer found for a listing, the families are
    gone through in the order of their list, which is the order in which
    the catalog first named them (a product of a family that is not yet
    there puts it at the end, any other leaves the names as they are);
    the product list of a family whose name
    is a substring of the title goes to product resolution, and the loop
    stops at the first family for which this succeeds: the listing is
    then recorded by that resolution and the orphans play no part.  The
    orphans are tried exactly when no family did so, that is when every
    family whose name is in the title failed product resolution, which
    includes the case that no family name is in the title. *)
Theorem families_before_orphans
    (debug_mode : bool) (st : state) (m : Manufacturer.t) (listing : json) (title : string) :
  let resolve products := find_product_and_add_to_result debug_mode st products listing title in
  let families := Manufacturer.families m in
  let outcome := match_in_manufacturer debug_mode st (Some m) listing title in
  (forall f i,
     families !! i = Some f ->
     substring (Family.name f) title ->
     (resolve (Family.products f)).2 = true ->
     (forall j g, j < i -> families !! j = Some g ->
        ~ (substring (Family.name g) title /\ (resolve (Family.products g)).2 = true)) ->
     outcome = (resolve (Family.products f)).1) /\
  ((forall f, f ∈ families -> substring (Family.name f) title ->
      (resolve (Family.products f)).2 = false) ->
   outcome =
     (if (resolve (Manufacturer.orphans_products m)).2
      then (resolve (Manufacturer.orphans_products m)).1
      else without_product debug_mode st listing)) /\
  ((exists f, f ∈ families /\ substring (Family.name f) title /\
              (resolve (Family.products f)).2 = true) \/
   (forall f, f ∈ families -> substring (Family.name f) title ->
      (resolve (Family.products f)).2 = false)) /\
  (forall fs family p,
     Family.name <$> Manufacturer.add_to_family fs family p =
     if decide (normalize_str family ∈ Family.name <$> fs)
     then Family.name <$> fs
     else (Family.name <$> fs) ++ [normalize_str family]).
Proof.
  intros resolve families outcome.
  assert (Hspec : forall f, family_resolves title f = true <->
            substring (Family.name f) title /\ (resolve (Family.products f)).2 = true)
    by (intros f; apply family_resolves_spec).
  assert (Hout : outcome =
            match find (family_resolves title) families with
            | Some f => (resolve (Family.products f)).1
            | None => if (resolve (Manufacturer.orphans_products m)).2
                      then (resolve (Manufacturer.orphans_products m)).1
                      else without_product debug_mode st listing
            end).
  { unfold outcome, resolve, families. rewrite match_in_manufacturer_resolve.
    unfold resolve_product.
    destruct (find (family_resolves title) (Manufacturer.families m)) as [f|] eqn:Hf.
    - apply find_some in Hf as [_ Hf]. unfold family_resolves in Hf.
      apply andb_true_iff in Hf as [_ [p Hp]%bool_decide_eq_true].
      by rewrite find_product_first_match, Hp.
    - rewrite find_product_first_match.
      by destruct (first_match (Manufacturer.orphans_products m) title). }
  split; [|split; [|split]]; [| | |apply add_to_family_names].
  - intros f i Hi Hname Hres Hbefore. rewrite Hout.
    destruct (find (family_resolves title) families) as [g|] eqn:Hg.
    + apply find_first in Hg as (j & Hj & Hgres & Hjbefore).
      destruct (Nat.lt_trichotomy i j) as [Hlt|[->|Hgt]].
      * pose proof (Hjbefore i f Hlt Hi) as Hno.
        pose proof (proj2 (Hspec f) (conj Hname Hres)) as Hyes. congruence.
      * congruence.
      * destruct (Hbefore j g Hgt Hj). by apply Hspec.
    + rewrite find_nothing in Hg.
      assert (family_resolves title f = true) as Hf by (by apply Hspec).
      rewrite Hg in Hf; [done | by eapply list_elem_of_lookup_2].
  - intros Hnone. rewrite Hout.
    destruct (find (family_resolves title) families) as [g|] eqn:Hg; [|done].
    apply find_some in Hg as [Hin Hg]. apply Hspec in Hg as [Hname Hres].
    rewrite Hnone in Hres; [done | by apply list_elem_of_In | done].
  - destruct (find (family_resolves title) families) as [g|] eqn:Hg.
    + left. apply find_some in Hg as [Hin Hg]. apply Hspec in Hg as [Hname Hres].
      exists g. by rewrite list_elem_of_In.
    + right. rewrite find_nothing in Hg. intros f Hin Hname.
      destruct ((resolve (Family.products f)).2) eqn:Hres; [|done].
      assert (family_resolves title f = true) as Hf by (by apply Hspec).
      by rewrite Hg in Hf.
Qed.

(** *** The order of the output *)

(** The hashes of "a" and "b" as CPython 2.7 computes them on a 64-bit
    build: "a" lands in slot 0 and "b" in slot 3 of an empty dictionary,
    whichever is inserted first; and two orders as Python 2 prints them. *)
Lemma dict_order_examples :
  string_hash "a" = 12416037344%Z /\
  string_hash "b" = 12544037731%Z /\
  dict_iteration_order ["a"; "b"] = ["a"; "b"] /\
  dict_iteration_order ["b"; "a"] = ["a"; "b"] /\
  dict_iteration_order ["one"; "two"; "three"] = ["three"; "two"; "one"] /\
  dict_iteration_order ["a"; "b"; "c"; "d"; "e"; "f"; "g"; "h"]
    = ["a"; "c"; "b"; "e"; "d"; "g"; "f"; "h"].
Proof. repeat split; vm_compute; reflexivity. Qed.

Lemma slot_insert_perm (e : Z * string) (l : list (Z * string)) :
  Permutation (slot_insert e l) (e :: l).
Proof.
  induction l as [|e' l IH]; simpl; [reflexivity|].
  destruct (e.1 <? e'.1)%Z; [reflexivity|]. rewrite IH. apply perm_swap.
Qed.

Lemma by_slot_perm (l : list (Z * string)) : Permutation (by_slot l) l.
Proof.
  induction l as [|e l IH]; simpl; [reflexivity|].
  by rewrite slot_insert_perm, IH.
Qed.

Lemma place_all_keys (l : list string) (t : table) :
  Permutation (map snd (slots (fold_left place l t))) (l ++ map snd (slots t)).
Proof.
  revert t. induction l as [|k l IH]; intros t; simpl; [reflexivity|].
  rewrite IH. simpl. by rewrite Permutation_middle.
Qed.

Lemma dict_add_key_keys (t : table) (k : string) :
  Permutation (map snd (slots (dict_add_key t k))) (k :: map snd (slots t)).
Proof.
  unfold dict_add_key.
  destruct (_ >=? _)%Z; [|reflexivity].
  unfold dictresize. rewrite place_all_keys.
  rewrite (Permutation_map snd (by_slot_perm _)).
  simpl. by rewrite app_nil_r.
Qed.

Lemma dict_iteration_order_perm (ks : list string) :
  Permutation (dict_iteration_order ks) ks.
Proof.
  unfold dict_iteration_order.
  rewrite (Permutation_map snd (by_slot_perm _)).
  assert (Hgen : forall t, Permutation (map snd (slots (fold_left dict_add_key ks t)))
                                       (ks ++ map snd (slots t))).
  { induction ks as [|k ks IH]; intros t; simpl; [reflexivity|].
    rewrite IH, dict_add_key_keys. by rewrite Permutation_middle. }
  rewrite Hgen. simpl. by rewrite app_nil_r.
Qed.

Lemma elem_of_rev {A} (l : list A) (x : A) : x ∈ rev l <-> x ∈ l.
Proof. rewrite !list_elem_of_In. symmetry. apply in_rev. Qed.

Lemma NoDup_rev {A} (l : list A) : NoDup l -> NoDup (rev l).
Proof. rewrite !NoDup_ListNoDup. apply List.NoDup_rev. Qed.

Lemma first_seen_snoc (l : list string) (k : string) :
  first_seen (l ++ [k]) = if decide (k ∈ l) then first_seen l else first_seen l ++ [k].
Proof.
  unfold first_seen. rewrite rev_app_distr. simpl.
  destruct (decide_rel elem_of k (rev l)) as [Hin|Hnin].
  - rewrite decide_True; [done|]. by apply elem_of_rev.
  - rewrite decide_False; [done|]. by rewrite <- elem_of_rev.
Qed.

Lemma elem_of_first_seen (l : list string) (k : string) : k ∈ first_seen l <-> k ∈ l.
Proof.
  unfold first_seen. by rewrite elem_of_rev, elem_of_remove_dups, elem_of_rev.
Qed.

Lemma first_seen_NoDup (l : list string) : NoDup (first_seen l).
Proof.
  unfold first_seen. apply NoDup_rev, NoDup_remove_dups.
Qed.

Section Order.
Variable debug_mode : bool.
Variable manufacturers : list Manufacturer.t.

Lemma match_loop_keys (lines done : list json) (st st' : state) :
  keys (matches st) = first_seen (matched_names manufacturers done) ->
  match_loop debug_mode manufacturers st lines = Done st' ->
  keys (matches st') = first_seen (matched_names manufacturers (done ++ lines)).
Proof.
  revert done st. induction lines as [|l lines IH]; simpl; intros done st Hkeys Hrun.
  - injection Hrun as <-. by rewrite app_nil_r.
  - destruct (match_listing debug_mode manufacturers st l) as [st1| |] eqn:Hstep;
      simpl in Hrun; try discriminate.
    replace (done ++ l :: lines) with ((done ++ [l]) ++ lines) by by rewrite <- app_assoc.
    apply (IH _ st1); [|done].
    apply match_listing_outcome in Hstep.
    unfold matched_names in *. rewrite omap_app. simpl.
    destruct (listing_product manufacturers l) as [p|]; simpl.
    + subst st1. rewrite add_to_result_keys, first_seen_snoc, <- Hkeys.
      destruct (dict_contains (matches st) (Product.name p)) eqn:Hc.
      * rewrite decide_True; [done|].
        apply elem_of_first_seen. rewrite <- Hkeys. by apply dict_contains_keys.
      * rewrite decide_False; [done|]. intros Hin.
        apply elem_of_first_seen in Hin. rewrite <- Hkeys in Hin.
        apply dict_contains_keys in Hin. congruence.
    + destruct Hstep as [-> _]. by rewrite app_nil_r.
Qed.

Lemma produce_output_keys (st : state) :
  map fst (produce_output st) = dict_iteration_order (keys (matches st)).
Proof.
  unfold produce_output.
  assert (Hall : forall k, k ∈ dict_iteration_order (keys (matches st)) ->
                           is_Some (dict_get (matches st) k)).
  { intros k Hk. rewrite dict_iteration_order_perm in Hk.
    by apply dict_contains_get, dict_contains_keys. }
  fold (keys (matches st)).
  induction (dict_iteration_order (keys (matches st))) as [|k ks IH]; simpl; [done|].
  destruct (Hall k) as [v Hv]; [by left|]. rewrite Hv. simpl.
  f_equal. apply IH. intros k' Hk'. apply Hall. by right.
Qed.
End Order.

(** C9, as amended: the keys of the result set are the distinct names of
    the matched products in the order of their first match, and the
    output has one entry for each of them, once; the entries come in the
    iteration order of the dictionary, which is a rearrangement of that
    order. *)
Theorem output_keys_are_first_seen_rearranged
    (debug_mode : bool) (manufacturers : list Manufacturer.t) (lines : list json)
    (st : state) :
  match_listings debug_mode manufacturers lines = Done st ->
  keys (matches st) = first_seen (matched_names manufacturers lines) /\
  map fst (produce_output st) = dict_iteration_order (keys (matches st)) /\
  Permutation (map fst (produce_output st))
              (first_seen (matched_names manufacturers lines)) /\
  NoDup (map fst (produce_output st)).
Proof.
  intros Hrun.
  assert (Hkeys : keys (matches st) = first_seen (matched_names manufacturers lines)).
  { by apply (match_loop_keys debug_mode manufacturers lines [] initial st). }
  pose proof (produce_output_keys st) as Hout.
  repeat split; [done..| |].
  - rewrite Hout, <- Hkeys. apply dict_iteration_order_perm.
  - rewrite Hout, dict_iteration_order_perm, Hkeys. apply first_seen_NoDup.
Qed.

Lemma ba_listings_run :
  match_listings false (Scenario.index_of Scenario.ba_catalog) Scenario.ba_listings
    = Done (State [("b", [Scenario.listing_record "m" "b"]);
                   ("a", [Scenario.listing_record "m" "a"])] 0 [] []).
Proof. vm_compute. reflexivity. Qed.

Lemma output_keys_are_first_seen_rearranged_witness :
  match_listings false (Scenario.index_of Scenario.ba_catalog) Scenario.ba_listings
    = Done (State [("b", [Scenario.listing_record "m" "b"]);
                   ("a", [Scenario.listing_record "m" "a"])] 0 [] []) /\
  Permutation ["a"; "b"] ["b"; "a"].
Proof.
  split; [exact ba_listings_run|].
  exact (proj1 (proj2 (proj2
           (output_keys_are_first_seen_rearranged _ _ _ _ ba_listings_run)))).
Defined.

(** C9 fails as stated: with the products "b" and "a" matched in this
    order, the output names "a" before "b". *)
Lemma output_order_is_not_first_insertion :
  ~ (forall debug_mode manufacturers lines st,
       match_listings debug_mode manufacturers lines = Done st ->
       map fst (produce_output st) = first_seen (matched_names manufacturers lines)).
Proof.
  intros Hclaim.
  specialize (Hclaim false (Scenario.index_of Scenario.ba_catalog) Scenario.ba_listings _
                     ba_listings_run).
  vm_compute in Hclaim. discriminate Hclaim.
Qed.

(** *** The key of a matched listing *)

Lemma listing_product_all (P : Product.t -> Prop) (ms : list Manufacturer.t)
    (listing : json) (p : Product.t) :
  all_products P ms -> listing_product ms listing = Some p -> P p.
Proof.
  unfold listing_product, listing_manufacturer, all_products. intros Hall.
  destruct (listing !! "manufacturer") as [man|]; [|done].
  destruct (find_manufacturer ms (normalize_str man)) as [m|] eqn:Hm; [|done].
  destruct (listing !! "title") as [title|]; [|done].
  assert (Hin : m ∈ ms).
  { unfold find_manufacturer in Hm.
    destruct (candidate ms _ (bisect_left _ _ _)) as [m'|] eqn:Hc.
    - injection Hm as ->. apply candidate_spec in Hc as [Hi _].
      by eapply list_elem_of_lookup_2.
    - destruct (bisect_left _ _ _) as [|before]; [done|].
      apply candidate_spec in Hm as [Hi _]. by eapply list_elem_of_lookup_2. }
  rewrite Forall_forall in Hall. destruct (Hall m Hin) as [Horphans Hfamilies].
  unfold resolve_product, first_match.
  destruct (find (family_resolves _) (Manufacturer.families m)) as [f|] eqn:Hf.
  - apply find_some in Hf as [Hf _]. apply list_elem_of_In in Hf.
    rewrite Forall_forall in Hfamilies. specialize (Hfamilies f Hf).
    intros [Hp _]%find_some. rewrite Forall_forall in Hfamilies.
    by apply Hfamilies, list_elem_of_In.
  - intros [Hp _]%find_some. rewrite Forall_forall in Horphans.
    by apply Horphans, list_elem_of_In.
Qed.

Lemma produce_output_entry (st : state) (k : string) (v : list json) :
  dict_get (matches st) k = Some v -> (k, v) ∈ produce_output st.
Proof.
  intros Hk. unfold produce_output. apply list_elem_of_omap. exists k.
  split; [|by rewrite Hk].
  rewrite dict_iteration_order_perm.
  apply dict_contains_keys, dict_contains_get. by eexists.
Qed.

(** C5, as amended: a listing that resolves to a product is recorded,
    and written to the output, under the name the product carries in the
    index, which is the normalized (lower-cased) form of the display
    name of the catalog record the product was built from. *)
Theorem matched_key_is_normalized_name
    (debug_mode : bool) (lines : list json) (manufacturers : list Manufacturer.t)
    (st st' : state) (listing : json) (p : Product.t) :
  prepare_products_data lines = Done manufacturers ->
  listing_product manufacturers listing = Some p ->
  match_listing debug_mode manufacturers st listing = Done st' ->
  (exists r product_name,
     r ∈ lines /\ r !! "product_name" = Some product_name /\ built_from r p /\
     Product.name p = normalize_str product_name) /\
  dict_get (matches st') (Product.name p)
    = Some (default [] (dict_get (matches st) (Product.name p)) ++ [listing]) /\
  (Product.name p, default [] (dict_get (matches st) (Product.name p)) ++ [listing])
    ∈ produce_output st'.
Proof.
  intros Hprep Hp Hstep.
  assert (Hget : dict_get (matches st') (Product.name p)
                 = Some (default [] (dict_get (matches st) (Product.name p)) ++ [listing])).
  { apply match_listing_outcome in Hstep. rewrite Hp in Hstep. subst st'.
    by rewrite add_to_result_get, String.eqb_refl. }
  split; [|split; [exact Hget | by apply produce_output_entry]].
  pose proof (prepare_products_data_all
                (fun p => exists r, r ∈ lines /\ built_from r p) lines manufacturers) as Hall.
  assert (Hsrc : exists r, r ∈ lines /\ built_from r p).
  { apply (listing_product_all (fun p => exists r, r ∈ lines /\ built_from r p)
             manufacturers listing p); [|exact Hp].
    apply Hall; [|exact Hprep]. by eauto. }
  destruct Hsrc as [r [Hr Hbuilt]].
  pose proof Hbuilt as (pn & mo & Hpn & Hmo & Hnew).
  exists r, pn. repeat split; try done.
  rewrite product_new_spec in Hnew.
  destruct (encodable _); [|discriminate].
  destruct (Re.compile _); try discriminate. by injection Hnew as <-.
Qed.

Lemma acme_index :
  prepare_products_data Scenario.acme_catalog = Done [Scenario.acme_manufacturer].
Proof. vm_compute. reflexivity. Qed.

Lemma matched_key_is_normalized_name_witness :
  dict_get (matches (add_to_result false initial Scenario.acme_product Scenario.acme_x100))
           "acme pro x100"
    = Some [Scenario.acme_x100].
Proof.
  exact (proj1 (proj2 (matched_key_is_normalized_name false Scenario.acme_catalog _ initial _
                         Scenario.acme_x100 Scenario.acme_product
                         acme_index eq_refl eq_refl))).
Defined.

(** C5 fails as stated: the product of the record named "Acme Pro X100"
    is recorded under "acme pro x100", which is the display name of no
    record of the catalog. *)
Lemma matched_key_is_not_the_display_name :
  ~ (forall debug_mode lines manufacturers st st' listing p,
       prepare_products_data lines = Done manufacturers ->
       listing_product manufacturers listing = Some p ->
       match_listing debug_mode manufacturers st listing = Done st' ->
       exists r, r ∈ lines /\ r !! "product_name" = Some (Product.name p)).
Proof.
  intros Hclaim.
  destruct (Hclaim false Scenario.acme_catalog _ initial _ Scenario.acme_x100
                   Scenario.acme_product acme_index eq_refl eq_refl) as [r [Hr Hname]].
  apply list_elem_of_singleton in Hr. subst r. vm_compute in Hname. discriminate Hname.
Qed.

(** *** The end-to-end scenario *)

(** C4, as amended: with the single catalog record {manufacturer "Acme",
    family "Pro", model "X100", name "Acme Pro X100"}, the listing
    titled "Acme Pro X100 Black" is matched to that product, whose entry
    in the output is named "acme pro x100"; the listing titled "Acme Pro
    X1000 Black" is not matched: its manufacturer is found, "x100" is a
    substring of its title, but the pattern of the model does not match
    in it, so that it ends among the listings without product. *)
Theorem acme_end_to_end :
  (forall debug_mode,
     run debug_mode Scenario.acme_catalog [Scenario.acme_x100; Scenario.acme_x1000]
       = Done [("acme pro x100", [Scenario.acme_x100])]) /\
  (forall debug_mode, run debug_mode Scenario.acme_catalog [Scenario.acme_x1000] = Done []) /\
  match_listings true (Scenario.index_of Scenario.acme_catalog)
                 [Scenario.acme_x100; Scenario.acme_x1000]
    = Done (State [("acme pro x100", [Scenario.acme_x100])] 1 [] [Scenario.acme_x1000]) /\
  Re.search (Scenario.pattern_of "x100") "acme pro x100 black" = true /\
  contains "x100" "acme pro x1000 black" = true /\
  Re.search (Scenario.pattern_of "x100") "acme pro x1000 black" = false.
Proof.
  repeat split; try (intros []); vm_compute; reflexivity.
Qed.

(** C4 fails as stated: no entry of the output is named "Acme Pro
    X100". *)
Lemma acme_output_is_not_named_as_in_catalog :
  ~ (exists out listings,
       run false Scenario.acme_catalog [Scenario.acme_x100; Scenario.acme_x1000] = Done out /\
       ("Acme Pro X100", listings) ∈ out).
Proof.
  intros (out & listings & Hrun & Hin).
  assert (Hout : run false Scenario.acme_catalog [Scenario.acme_x100; Scenario.acme_x1000]
                 = Done [("acme pro x100", [Scenario.acme_x100])])
    by (vm_compute; reflexivity).
  rewrite Hout in Hrun. injection Hrun as <-.
  apply list_elem_of_singleton in Hin. discriminate Hin.
Qed.

(** *** Models read as patterns *)

(** C1, at models with a character that means something in a pattern:
    the model "T+1" compiles to "one or more t, then 1", and a listing
    whose title is exactly "T+1" is not matched to it; the model "1.5"
    compiles to "1, any character, 5", and a listing with "125" in its
    title is matched to it; for the model "C++" the pattern does not
    compile and the index cannot be built. *)
Theorem model_is_read_as_a_pattern :
  Re.compile (Product.pattern "t+1")
    = Re.Compiled
        (Re.Seq (Re.Alt (Re.Seq Re.AtBeginning Re.Empty) (Re.Seq Re.AtBoundary Re.Empty))
           (Re.Seq (Re.Seq (Re.Plus (Re.Lit "t")) (Re.Seq (Re.Lit "1") Re.Empty))
              (Re.Seq (Re.Alt (Re.Seq Re.AtEnd Re.Empty) (Re.Seq Re.AtBoundary Re.Empty))
                 Re.Empty))) /\
  run false Scenario.plus_catalog [Scenario.plus_listing] = Done [] /\
  Re.search (Scenario.pattern_of "t+1") "t+1" = false /\
  run false Scenario.dot_catalog [Scenario.dot_listing]
    = Done [("acme 1.5", [Scenario.dot_listing])] /\
  contains "1.5" "acme 125" = false /\
  prepare_products_data Scenario.cplusplus_catalog = Raise ReError.
Proof.
  repeat split; vm_compute; reflexivity.
Qed.

(** *** Models made of ordinary characters *)

(** The anchors of the wrapper at work: a model is found at the start
    and at the end of a title and between spaces, not inside a longer
    run of word characters; [$] also holds before a final newline. *)
Lemma whole_model_examples :
  Re.search (Re.whole_model "100") "100" = true /\
  Re.search (Re.whole_model "100") "canon 100 black" = true /\
  Re.search (Re.whole_model "100") "canon 1000" = false /\
  Re.search (Re.whole_model "100") "canon a100" = false /\
  Re.search (Re.whole_model "100") "canon-100." = true /\
  Re.search (Re.whole_model "x-") (String "x" (String "-" (String Re.newline ""))) = true /\
  Re.search (Re.whole_model "x-") "x- y" = false.
Proof. repeat split; vm_compute; reflexivity. Qed.

Lemma parse_ordinary (s rest : string) (f : Re.frame) (outer : list Re.frame) :
  Re.ordinary s = true ->
  Re.parse (s +:+ rest) f outer =
  Re.parse rest
           (Re.Frame (Re.alternatives f)
                     (rev (map (fun r => (r, Re.Single)) (Re.literals s)) ++ Re.items f))
           outer.
Proof.
  revert f. induction s as [|c s IH]; intros f Hs.
  - by destruct f.
  - rewrite append_cons. simpl in *.
    destruct (Re.classify c) eqn:Hc; try discriminate.
    rewrite IH by done. simpl. by rewrite <- app_assoc.
Qed.

Lemma compile_ordinary (model : string) :
  Re.ordinary model = true ->
  Re.compile (Product.pattern model) = Re.Compiled (Re.whole_model model).
Proof.
  intros Hm. unfold Re.compile, Product.pattern.
  change ("(^|\b)(" +:+ model +:+ ")($|\b)")
    with (String "(" (String "^" (String "|" (String "\" (String "b" (String ")"
           (String "(" (model +:+ ")($|\b)")))))))).
  assert (Hext : Re.extension (model +:+ ")($|\b)") = false).
  { destruct model as [|c model]; [reflexivity|]. rewrite append_cons. simpl in *.
    destruct (Ascii.eqb_spec c "?") as [->|]; [discriminate | reflexivity]. }
  cbn -[String.append Re.extension]. rewrite Hext.
  rewrite parse_ordinary by done.
  cbn -[Re.literals]. unfold Re.whole_model, Re.close, Re.current. cbn -[Re.literals].
  rewrite app_nil_r, map_rev, rev_involutive, map_map. simpl. by rewrite map_id.
Qed.

Lemma run_literals_match (m r : string) (prev : option ascii) :
  Re.run (Re.sequence (Re.literals m)) (Re.Cursor prev (m +:+ r))
  = [Re.Cursor (Re.advance prev m) r].
Proof.
  revert prev. induction m as [|c m IH]; intros prev; [reflexivity|].
  rewrite append_cons. simpl. unfold Re.read. simpl.
  rewrite Ascii.eqb_refl. simpl. by rewrite IH.
Qed.

Lemma run_literals_mismatch (m s : string) (prev : option ascii) :
  startswith m s = false ->
  Re.run (Re.sequence (Re.literals m)) (Re.Cursor prev s) = [].
Proof.
  revert s prev. induction m as [|c m IH]; intros s prev; simpl; [discriminate|].
  unfold Re.read. simpl. destruct s as [|b s]; [reflexivity|].
  destruct (Ascii.eqb c b); [|reflexivity].
  intros Hm. simpl. by rewrite IH.
Qed.

Lemma run_anchors (b1 b2 : bool) (r1 r2 : Re.regex) (k : Re.cursor) (f : Re.cursor -> list Re.cursor) :
  Re.run r1 k = Re.guard b1 k -> Re.run r2 k = Re.guard b2 k ->
  flat_map f (Re.run (Re.Alt (Re.Seq r1 Re.Empty) (Re.Seq r2 Re.Empty)) k) = [] <->
  b1 || b2 = false \/ f k = [].
Proof.
  intros H1 H2. simpl. rewrite H1, H2.
  destruct b1, b2; simpl; rewrite ?app_nil_r; try tauto.
  - split; [intros [? _]%app_eq_nil; by right | intros [ | -> ]; done].
  - split; [by right | intros [ | -> ]; done].
  - split; [by right | intros [ | -> ]; done].
Qed.

Lemma matches_whole_model (m : string) (k : Re.cursor) :
  Re.matches_at (Re.whole_model m) k = true <->
  Re.at_beginning k || Re.at_boundary k = true /\
  exists r, Re.rest k = m +:+ r /\
            let k' := Re.Cursor (Re.advance (Re.before k) m) r in
            Re.at_end k' || Re.at_boundary k' = true.
Proof.
  unfold Re.matches_at, Re.whole_model.
  assert (Hne : forall l : list Re.cursor,
            match l with [] => false | _ :: _ => true end = true <-> l <> [])
    by (intros [|? ?]; split; done).
  rewrite Hne.
  change (Re.run (Re.Seq ?a ?b) k) with (flat_map (Re.run b) (Re.run a k)).
  rewrite (run_anchors (Re.at_beginning k) (Re.at_boundary k)) by reflexivity.
  change (Re.run (Re.Seq ?a ?b) k) with (flat_map (Re.run b) (Re.run a k)).
  destruct k as [prev s]. simpl Re.rest. simpl Re.before.
  destruct (startswith m s) eqn:Hm.
  - apply startswith_spec in Hm as [r ->]. rewrite run_literals_match.
    cbn [flat_map]. rewrite app_nil_r.
    change (Re.run (Re.Seq ?a Re.Empty) ?k') with (flat_map (Re.run Re.Empty) (Re.run a k')).
    rewrite (run_anchors (Re.at_end _) (Re.at_boundary _)) by reflexivity.
    split.
    + intros Hno. split.
      * destruct (_ || _) eqn:Hb; [done|]. destruct Hno. by left.
      * exists r. split; [done|]. cbv zeta.
        destruct (Re.at_end _ || Re.at_boundary _) eqn:Hb; [done|].
        destruct Hno. right. by left.
    + intros [Hl (r' & Hr' & Hr)] [Hno|[Hno|Hno]]; try congruence.
      * apply String.app_inj in Hr'. subst r'. cbv zeta in Hr. congruence.
      * discriminate Hno.
  - rewrite run_literals_mismatch by done. split; [intros Hno; destruct Hno; by right|].
    intros [_ (r & -> & _)].
    assert (startswith m (m +:+ r) = true) by (apply startswith_spec; by exists r).
    congruence.
Qed.

Lemma search_from_spec (re : Re.regex) (prev : option ascii) (s : string) :
  Re.search_from re prev s = true <->
  exists l s', s = l +:+ s' /\ Re.matches_at re (Re.Cursor (Re.advance prev l) s') = true.
Proof.
  revert prev. induction s as [|c s IH]; intros prev; simpl.
  - rewrite orb_false_r. split.
    + intros Hm. by exists "", "".
    + intros ([|? ?] & s' & Hs & Hm).
      * rewrite append_empty_l in Hs. by subst s'.
      * by rewrite append_cons in Hs.
  - rewrite orb_true_iff, IH. split.
    + intros [Hm|(l & s' & -> & Hm)].
      * by exists "", (String c s).
      * by exists (String c l), s'.
    + intros ([|a l] & s' & Hs & Hm).
      * left. rewrite append_empty_l in Hs. by subst s'.
      * right. rewrite append_cons in Hs. injection Hs as -> ->. by exists l, s'.
Qed.

Lemma advance_append (prev : option ascii) (l m : string) :
  Re.advance prev (l +:+ m) = Re.advance (Re.advance prev l) m.
Proof. revert prev. induction l as [|c l IH]; intros prev; [reflexivity|]. apply IH. Qed.

Lemma advance_some (c : ascii) (l : string) : is_Some (Re.advance (Some c) l).
Proof. revert c. induction l as [|c' l IH]; intros c; simpl; [by eexists | apply IH]. Qed.

Lemma at_beginning_advance (l s : string) :
  Re.at_beginning (Re.Cursor (Re.advance None l) s) = true <-> l = "".
Proof.
  unfold Re.at_beginning. simpl. destruct l as [|c l]; simpl; [done|].
  destruct (advance_some c l) as [c' ->]. done.
Qed.

(** The pattern of a model made of ordinary characters is found in a
    title exactly when the model occurs in it as a whole token. *)
Lemma search_whole_model (m t : string) :
  Re.search (Re.whole_model m) t = true <-> Re.whole_token m t.
Proof.
  unfold Re.search, Re.whole_token. rewrite search_from_spec. split.
  - intros (l & s' & -> & (Hleft & r & Hr & Hright)%matches_whole_model).
    simpl in Hr. subst s'. exists l, r. split; [done|]. split.
    + apply orb_true_iff in Hleft as [Hl|Hl]; [left; by apply at_beginning_advance in Hl|by right].
    + simpl in Hright. rewrite <- advance_append in Hright.
      by apply orb_true_iff in Hright.
  - intros (l & r & -> & Hleft & Hright). exists l, (m +:+ r). split; [done|].
    apply matches_whole_model. split.
    + apply orb_true_iff. destruct Hleft as [->|Hl]; [by left | by right].
    + exists r. split; [done|]. simpl. rewrite <- advance_append.
      by apply orb_true_iff.
Qed.

Lemma whole_token_itself (m : string) : Re.whole_token m m.
Proof.
  exists "", "". split; [|split].
  - rewrite append_empty_l. induction m as [|c m IH]; [reflexivity|].
    by rewrite append_cons, <- IH.
  - by left.
  - by left.
Qed.

(** Product resolution for models made of ordinary characters: the
    pattern compiled for such a model is the whole-token pattern; over a
    candidate list of such products, product resolution selects the
    first product in list order whose model occurs in the title as a
    whole token, records the listing under it and stops, and it fails,
    leaving the state as it is, when no model so occurs; a title equal
    to the model of a candidate is always resolved. *)
Theorem whole_token_resolution :
  (forall name family model,
     encodable (normalize_str model) = true ->
     Re.ordinary (normalize_str model) = true ->
     Product.new name family model
       = Done (Product.Make (normalize_str name) (normalize family) (normalize_str model)
                            (Re.whole_model (normalize_str model)))) /\
  (forall debug_mode st products listing title,
     (forall p, p ∈ products ->
        Product.whole_model_re p = Re.whole_model (Product.model p)) ->
     match find_product_and_add_to_result debug_mode st products listing title with
     | (st', true) =>
         exists i p,
           products !! i = Some p /\
           Re.whole_token (Product.model p) title /\
           (forall j q, j < i -> products !! j = Some q ->
              ~ Re.whole_token (Product.model q) title) /\
           st' = add_to_result debug_mode st p listing
     | (st', false) =>
         st' = st /\
         forall p, p ∈ products -> ~ Re.whole_token (Product.model p) title
     end) /\
  (forall debug_mode st products listing p,
     (forall q, q ∈ products ->
        Product.whole_model_re q = Re.whole_model (Product.model q)) ->
     p ∈ products ->
     (find_product_and_add_to_result debug_mode st products listing (Product.model p)).2
       = true).
Proof.
  assert (Hfind : forall debug_mode st products listing title,
    (forall p, p ∈ products ->
       Product.whole_model_re p = Re.whole_model (Product.model p)) ->
    match find_product_and_add_to_result debug_mode st products listing title with
    | (st', true) =>
        exists i p,
          products !! i = Some p /\
          Re.whole_token (Product.model p) title /\
          (forall j q, j < i -> products !! j = Some q ->
             ~ Re.whole_token (Product.model q) title) /\
          st' = add_to_result debug_mode st p listing
    | (st', false) =>
        st' = st /\
        forall p, p ∈ products -> ~ Re.whole_token (Product.model p) title
    end).
  { intros debug_mode st products listing title Hre.
    rewrite find_product_first_match. unfold first_match.
    destruct (find _ products) as [p|] eqn:Hp.
    - apply find_first in Hp as (i & Hi & Hsearch & Hbefore).
      exists i, p. repeat split; [done| |].
      + apply search_whole_model. rewrite <- Hre; [done|].
        by eapply list_elem_of_lookup_2.
      + intros j q Hj Hq Htoken. apply search_whole_model in Htoken.
        rewrite <- Hre in Htoken by (by eapply list_elem_of_lookup_2).
        rewrite (Hbefore j q Hj Hq) in Htoken. discriminate.
    - split; [done|]. rewrite find_nothing in Hp. intros p Hin Htoken.
      apply search_whole_model in Htoken. rewrite <- Hre in Htoken by done.
      rewrite (Hp p Hin) in Htoken. discriminate. }
  split; [|split; [exact Hfind|]].
  - intros name family model Henc Hm.
    by rewrite product_new_spec, Henc, compile_ordinary.
  - intros debug_mode st products listing p Hre Hin.
    specialize (Hfind debug_mode st products listing (Product.model p) Hre).
    destruct (find_product_and_add_to_result _ _ _ _ _) as [st' [|]]; [done|].
    destruct Hfind as [_ Hno]. destruct (Hno p Hin). apply whole_token_itself.
Qed.

(** *** Instances *)

Lemma sony_index_sorted : StronglySorted (no_later Manufacturer.lt) Scenario.sony_index.
Proof. repeat constructor. Qed.

Lemma manufacturer_resolution_witness :
  find_manufacturer Scenario.sony_index "sony" = Some (Manufacturer.new "sony").
Proof.
  refine (proj1 (proj2 (manufacturer_resolution false Scenario.sony_index initial
                          (Scenario.listing_record "Sony" "Sony Reader") "Sony" "Sony Reader"
                          sony_index_sorted eq_refl eq_refl))
               (Manufacturer.new "sony") eq_refl _).
  by exists "", "".
Defined.

Lemma empty_manufacturer_resolves_to_smallest_witness :
  bisect_left Manufacturer.lt (Scenario.index_of Scenario.acme_catalog)
              (Manufacturer.new (normalize_str "")) = 0.
Proof.
  refine (proj1 (empty_manufacturer_resolves_to_smallest false Scenario.acme_catalog
                   (Scenario.index_of Scenario.acme_catalog) initial
                   (Scenario.listing_record "" "Acme Pro X100") "" "Acme Pro X100"
                   _ _ eq_refl eq_refl eq_refl)).
  - vm_compute. reflexivity.
  - discriminate.
Defined.

Lemma normalize_idempotent_caseless_witness :
  normalize (Some Scenario.cafe_capitals) = normalize (Some Scenario.cafe_small).
Proof.
  apply (proj1 (proj2 (proj2 (proj2 normalize_idempotent_caseless)))).
  repeat (constructor; [first [by left | right; right; by split | right; left; by split]|]).
  constructor.
Defined.

Lemma catalog_errors_and_orphans_witness :
  exists e, prepare_products_data [Scenario.incomplete_record] = Raise e.
Proof.
  refine (proj2 (proj1 catalog_errors_and_orphans [Scenario.incomplete_record]
                   Scenario.incomplete_record _ _) _).
  - by left.
  - right. by left.
  - intros r ->%list_elem_of_singleton model Hmodel. discriminate Hmodel.
Defined.

Lemma families_before_orphans_witness :
  match_in_manufacturer false initial (Some Scenario.acme_manufacturer)
                        Scenario.acme_x100 "acme pro x100 black"
  = (find_product_and_add_to_result false initial [Scenario.acme_product]
                                    Scenario.acme_x100 "acme pro x100 black").1.
Proof.
  refine (proj1 (families_before_orphans false initial Scenario.acme_manufacturer
                   Scenario.acme_x100 "acme pro x100 black")
               (Family.Make "pro" [Scenario.acme_product]) 0 eq_refl _ eq_refl _).
  - by exists "acme ", " x100 black".
  - intros j g Hj. lia.
Defined.

(** ** Further properties *)

(** *** What a run does with each listing *)

Section Steps.
Variable debug_mode : bool.
Variable manufacturers : list Manufacturer.t.

Lemma match_listing_step (st st' : state) (listing : json) :
  match_listing debug_mode manufacturers st listing = Done st' ->
  st' = match listing_product manufacturers listing with
        | Some p => add_to_result debug_mode st p listing
        | None =>
            match listing_manufacturer manufacturers listing with
            | Some _ => without_product debug_mode st listing
            | None => without_manufacturer debug_mode st listing
            end
        end.
Proof.
  unfold match_listing, listing_product, listing_manufacturer, getitem.
  destruct (listing !! "manufacturer") as [man|]; simpl; [|discriminate].
  destruct (listing !! "title") as [title|]; simpl; [|discriminate].
  intros [= <-].
  destruct (find_manufacturer manufacturers (normalize_str man)) as [m|].
  - apply match_in_manufacturer_resolve.
  - reflexivity.
Qed.

Lemma match_loop_snoc (lines : list json) (l : json) (st : state) :
  match_loop debug_mode manufacturers st (lines ++ [l]) =
  match match_loop debug_mode manufacturers st lines with
  | Done st' => match_listing debug_mode manufacturers st' l
  | Raise e => Raise e
  | Unmodelled => Unmodelled
  end.
Proof.
  revert st. induction lines as [|l0 lines IH]; intros st; simpl.
  - by destruct (match_listing debug_mode manufacturers st l).
  - destruct (match_listing debug_mode manufacturers st l0); simpl; [apply IH|done..].
Qed.

Lemma match_loop_matches (lines : list json) (st : state) (k : string) :
  match_listings debug_mode manufacturers lines = Done st ->
  dict_get (matches st) k =
  match listings_of manufacturers k lines with
  | [] => None
  | ls => Some ls
  end.
Proof.
  unfold match_listings. revert st.
  induction lines as [|l lines IH] using rev_ind; intros st.
  - intros [= <-]. reflexivity.
  - rewrite match_loop_snoc.
    destruct (match_loop debug_mode manufacturers initial lines) as [st0| |];
      try discriminate.
    intros Hstep. specialize (IH st0 eq_refl).
    apply match_listing_step in Hstep. subst st.
    unfold listings_of in *. rewrite filter_app, filter_cons, filter_nil.
    destruct (listing_product manufacturers l) as [p|].
    + rewrite add_to_result_get. cbn [fmap option_fmap option_map].
      destruct (String.eqb_spec (Product.name p) k) as [->|Hne].
      * rewrite decide_True by done. rewrite IH.
        by destruct (filter _ lines).
      * rewrite decide_False by congruence. by rewrite app_nil_r.
    + cbn [fmap option_fmap option_map]. rewrite decide_False by done. rewrite app_nil_r.
      destruct (listing_manufacturer manufacturers l);
        unfold without_product, without_manufacturer; by destruct debug_mode.
Qed.
End Steps.

Lemma match_listing_resolved (debug_mode : bool) (manufacturers : list Manufacturer.t)
    (st : state) (listing : json) (p : Product.t) :
  listing_product manufacturers listing = Some p ->
  match_listing debug_mode manufacturers st listing
    = Done (add_to_result debug_mode st p listing).
Proof.
  unfold listing_product, listing_manufacturer.
  destruct (listing !! "manufacturer") as [man|] eqn:Hman; [|done].
  destruct (find_manufacturer manufacturers (normalize_str man)) as [m|] eqn:Hm; [|done].
  destruct (listing !! "title") as [title|] eqn:Htitle; [|done].
  intros Hp. rewrite (match_listing_total _ _ _ _ man title Hman Htitle), Hm.
  by rewrite match_in_manufacturer_resolve, Hp.
Qed.

(** C8: recording a listing under a product's name appends it to the
    list kept under that name, which is created when the name is new;
    so two listings recorded one after the other for the same name, into
    an empty result set, give the list of the two in that order, also
    when they are equal; the lists of the other names are left alone;
    and a key that is in the result set at some point of a run is still
    there at its end, with its list extended at the end only.  This is
    what [find_product_and_add_to_result] does with a listing: when the
    pattern of some product of the list is found in the title, it
    records the listing in this way under the name of the first such
    product and answers true; when there is none it answers false and
    leaves the result set as it is.  And it is what a run records: two
    listings that resolve to the same product, read one after the
    other, are both at the end of the list of its name, in the order in
    which they were read (from the start of a run the list is the two of
    them), and at the end of any run the list under a name is the
    listings that resolve to a product of this name, in the order of the
    file, each as often as it was read. *)
Theorem aggregation_appends_in_order
    (debug_mode : bool) (st : state) (p : Product.t) (l1 l2 : json) :
  dict_get (matches (add_to_result debug_mode st p l1)) (Product.name p)
    = Some (default [] (dict_get (matches st) (Product.name p)) ++ [l1]) /\
  dict_get (matches (add_to_result debug_mode (add_to_result debug_mode st p l1) p l2))
           (Product.name p)
    = Some (default [] (dict_get (matches st) (Product.name p)) ++ [l1; l2]) /\
  dict_get (matches (add_to_result debug_mode (add_to_result debug_mode initial p l1) p l2))
           (Product.name p)
    = Some [l1; l2] /\
  (forall k, k <> Product.name p ->
     dict_get (matches (add_to_result debug_mode st p l1)) k = dict_get (matches st) k) /\
  (forall manufacturers lines st' k v,
     match_loop debug_mode manufacturers st lines = Done st' ->
     dict_get (matches st) k = Some v ->
     exists v', dict_get (matches st') k = Some (v ++ v')) /\
  (forall products title,
     (exists q, q ∈ products /\ Re.search (Product.whole_model_re q) title = true) ->
     exists i q,
       products !! i = Some q /\
       Re.search (Product.whole_model_re q) title = true /\
       (forall j q', j < i -> products !! j = Some q' ->
          Re.search (Product.whole_model_re q') title = false) /\
       find_product_and_add_to_result debug_mode st products l1 title
         = (add_to_result debug_mode st q l1, true) /\
       dict_get (matches (find_product_and_add_to_result debug_mode st products l1 title).1)
                (Product.name q)
         = Some (default [] (dict_get (matches st) (Product.name q)) ++ [l1]) /\
       forall k, k <> Product.name q ->
         dict_get (matches (find_product_and_add_to_result debug_mode st products l1 title).1) k
           = dict_get (matches st) k) /\
  (forall products title,
     (forall q, q ∈ products -> Re.search (Product.whole_model_re q) title = false) ->
     find_product_and_add_to_result debug_mode st products l1 title = (st, false)) /\
  (forall manufacturers,
     listing_product manufacturers l1 = Some p ->
     listing_product manufacturers l2 = Some p ->
     exists st',
       match_loop debug_mode manufacturers st [l1; l2] = Done st' /\
       dict_get (matches st') (Product.name p)
         = Some (default [] (dict_get (matches st) (Product.name p)) ++ [l1; l2])) /\
  (forall manufacturers,
     listing_product manufacturers l1 = Some p ->
     listing_product manufacturers l2 = Some p ->
     exists st',
       match_listings debug_mode manufacturers [l1; l2] = Done st' /\
       dict_get (matches st') (Product.name p) = Some [l1; l2]) /\
  (forall manufacturers lines st' k,
     match_listings debug_mode manufacturers lines = Done st' ->
     dict_get (matches st') k =
     match listings_of manufacturers k lines with
     | [] => None
     | ls => Some ls
     end).
Proof.
  assert (Hget : forall st l q,
    dict_get (matches (add_to_result debug_mode st q l)) (Product.name q)
    = Some (default [] (dict_get (matches st) (Product.name q)) ++ [l])).
  { intros st0 l q. by rewrite add_to_result_get, String.eqb_refl. }
  assert (Hother : forall st l q k, k <> Product.name q ->
    dict_get (matches (add_to_result debug_mode st q l)) k = dict_get (matches st) k).
  { intros st0 l q k Hk. rewrite add_to_result_get.
    destruct (String.eqb_spec (Product.name q) k); [congruence | reflexivity]. }
  assert (Htwo : forall st0 manufacturers,
    listing_product manufacturers l1 = Some p ->
    listing_product manufacturers l2 = Some p ->
    exists st',
      match_loop debug_mode manufacturers st0 [l1; l2] = Done st' /\
      dict_get (matches st') (Product.name p)
        = Some (default [] (dict_get (matches st0) (Product.name p)) ++ [l1; l2])).
  { intros st0 ms H1 H2. eexists. split.
    - simpl. rewrite (match_listing_resolved _ _ _ _ _ H1). simpl.
      rewrite (match_listing_resolved _ _ _ _ _ H2). reflexivity.
    - rewrite Hget, Hget. simpl. by rewrite <- app_assoc. }
  split; [apply Hget|].
  split; [rewrite Hget, Hget; simpl; by rewrite <- app_assoc|].
  split; [by rewrite Hget, Hget|].
  split; [apply Hother|].
  split; [intros ms lines st' k v; apply match_loop_extends|].
  split; [|split; [|split; [|split]]].
  - intros products title (q0 & Hq0 & Hs0).
    rewrite find_product_first_match. unfold first_match.
    destruct (find _ products) as [q|] eqn:Hfind.
    + apply find_first in Hfind as (i & Hi & Hs & Hbefore).
      exists i, q. simpl. split; [done|]. split; [done|]. split; [done|].
      split; [done|]. split; [apply Hget | apply Hother].
    + rewrite find_nothing in Hfind. rewrite (Hfind q0 Hq0) in Hs0. discriminate.
  - intros products title Hnone. rewrite find_product_first_match. unfold first_match.
    destruct (find _ products) as [q|] eqn:Hfind; [|done].
    apply find_first in Hfind as (i & Hi & Hs & _).
    rewrite (Hnone q) in Hs; [discriminate|]. by eapply list_elem_of_lookup_2.
  - apply Htwo.
  - intros ms H1 H2. destruct (Htwo initial ms H1 H2) as (st' & Hrun & Hst').
    exists st'. split; [exact Hrun|]. by rewrite Hst'.
  - intros ms lines st' k. apply match_loop_matches.
Qed.

Lemma aggregation_appends_in_order_witness :
  exists st',
    match_listings false [Scenario.acme_manufacturer]
                   [Scenario.acme_x100; Scenario.acme_x100] = Done st' /\
    dict_get (matches st') "acme pro x100" = Some [Scenario.acme_x100; Scenario.acme_x100].
Proof.
  refine (proj1 (proj2 (proj2 (proj2 (proj2 (proj2 (proj2 (proj2 (proj2
            (aggregation_appends_in_order false initial Scenario.acme_product
               Scenario.acme_x100 Scenario.acme_x100)))))))))
            [Scenario.acme_manufacturer] _ _); vm_compute; reflexivity.
Defined.

(** X1: after [match_listings] has read the listings, the entry of
    [self.matches] under a key holds exactly the listings that resolve
    to a product of that name, in the order of the listings file, and
    there is no entry for a name no listing resolves to; so no entry is
    empty, a listing is under a key exactly when it was read and
    resolves to a product of that name, and no listing is under two
    keys. *)
Theorem matches_group_listings_by_product
    (debug_mode : bool) (manufacturers : list Manufacturer.t) (lines : list json)
    (st : state) :
  match_listings debug_mode manufacturers lines = Done st ->
  (forall k, dict_get (matches st) k =
             match listings_of manufacturers k lines with
             | [] => None
             | ls => Some ls
             end) /\
  (forall k ls, dict_get (matches st) k = Some ls ->
     ls <> [] /\
     forall l, l ∈ ls <->
               l ∈ lines /\ Product.name <$> listing_product manufacturers l = Some k) /\
  (forall k1 k2 ls1 ls2 l,
     dict_get (matches st) k1 = Some ls1 -> dict_get (matches st) k2 = Some ls2 ->
     l ∈ ls1 -> l ∈ ls2 -> k1 = k2).
Proof.
  intros Hrun.
  assert (Hget : forall k ls, dict_get (matches st) k = Some ls ->
                   ls <> [] /\ ls = listings_of manufacturers k lines).
  { intros k ls. rewrite (match_loop_matches _ _ _ _ k Hrun).
    destruct (listings_of manufacturers k lines); [done|].
    by intros [= <-]. }
  split; [|split].
  - intros k. by apply (match_loop_matches debug_mode).
  - intros k ls [Hne ->]%Hget. split; [done|]. intros l.
    unfold listings_of. rewrite list_elem_of_filter. tauto.
  - intros k1 k2 ls1 ls2 l [_ ->]%Hget [_ ->]%Hget.
    unfold listings_of. rewrite !list_elem_of_filter. intros [H1 _] [H2 _]. congruence.
Qed.

Lemma match_listing_without_debug (debug_mode : bool) (ms : list Manufacturer.t)
    (st st' : state) (l : json) :
  match_listing debug_mode ms st l = Done st' ->
  match_listing false ms (State (matches st) 0 [] []) l = Done (State (matches st') 0 [] []).
Proof.
  unfold match_listing, getitem.
  destruct (l !! "manufacturer") as [man|]; simpl; [|discriminate].
  destruct (l !! "title") as [title|]; simpl; [|discriminate].
  intros [= <-]. f_equal.
  destruct (find_manufacturer ms (normalize_str man)) as [m|].
  - rewrite !match_in_manufacturer_resolve.
    destruct (resolve_product m (normalize_str title)); [reflexivity|].
    unfold without_product. by destruct debug_mode.
  - simpl. by destruct debug_mode.
Qed.

(** X2: the debug mode changes nothing of what is matched: a run of
    [match_listings] in any mode ends with the same [self.matches] as
    the run without debug mode, in which the counter and the two debug
    lists stay as they were at the start. *)
Theorem debug_mode_leaves_matches_alone
    (debug_mode : bool) (manufacturers : list Manufacturer.t) (lines : list json)
    (st : state) :
  match_listings debug_mode manufacturers lines = Done st ->
  match_listings false manufacturers lines = Done (State (matches st) 0 [] []).
Proof.
  unfold match_listings.
  change initial with (State (matches initial) 0 [] []) at 2.
  generalize initial as st0. revert st.
  induction lines as [|l lines IH]; intros st st0; simpl.
  - by intros [= <-].
  - destruct (match_listing debug_mode manufacturers st0 l) as [st1| |] eqn:Hstep;
      simpl; try discriminate.
    rewrite (match_listing_without_debug _ _ _ _ _ Hstep). simpl. apply IH.
Qed.

Lemma match_listing_product_has_manufacturer (ms : list Manufacturer.t) (l : json) :
  is_Some (listing_product ms l) -> is_Some (listing_manufacturer ms l).
Proof.
  unfold listing_product. destruct (listing_manufacturer ms l); [eauto|].
  by intros [? ?].
Qed.

(** X3: in debug mode, [matches_count] is the number of listings that
    resolve to a product, [non_matched_manufacturer] holds the listings
    for which no manufacturer was found and [non_matched_product] those
    whose manufacturer was found but no product in it, both in the
    order of the file; each listing is counted exactly once, so the
    three numbers add up to the number of listings, and the second
    number that [main] prints is the number of listings less the
    matches. *)
Theorem debug_counters_account_for_listings
    (manufacturers : list Manufacturer.t) (lines : list json) (st : state) :
  match_listings true manufacturers lines = Done st ->
  matches_count st
    = length (filter (fun l => is_Some (listing_product manufacturers l)) lines) /\
  non_matched_manufacturer st
    = filter (fun l => listing_manufacturer manufacturers l = None) lines /\
  non_matched_product st
    = filter (fun l => is_Some (listing_manufacturer manufacturers l) /\
                       listing_product manufacturers l = None) lines /\
  matches_count st + length (non_matched_product st)
    + length (non_matched_manufacturer st) = length lines /\
  debug_report st
    = (matches_count st, length lines - matches_count st,
       length (non_matched_manufacturer st)).
Proof.
  unfold match_listings. revert st.
  induction lines as [|l lines IH] using rev_ind; intros st.
  - intros [= <-]. by repeat split.
  - rewrite match_loop_snoc.
    destruct (match_loop true manufacturers initial lines) as [st0| |]; try discriminate.
    intros Hstep. destruct (IH st0 eq_refl) as (Hc & Hm & Hp & Hsum & _).
    apply match_listing_step in Hstep.
    assert (Hgoal :
      matches_count st
        = length (filter (fun l => is_Some (listing_product manufacturers l))
                         (lines ++ [l])) /\
      non_matched_manufacturer st
        = filter (fun l => listing_manufacturer manufacturers l = None) (lines ++ [l]) /\
      non_matched_product st
        = filter (fun l => is_Some (listing_manufacturer manufacturers l) /\
                           listing_product manufacturers l = None) (lines ++ [l]) /\
      matches_count st + length (non_matched_product st)
        + length (non_matched_manufacturer st) = length (lines ++ [l])).
    { rewrite !filter_app, !filter_cons, !filter_nil.
      pose proof (match_listing_product_has_manufacturer manufacturers l) as Hpm.
      destruct (listing_product manufacturers l) as [p|] eqn:Hlp;
        destruct (listing_manufacturer manufacturers l) as [m|] eqn:Hlm;
        subst st; repeat case_decide;
        try (exfalso;
             repeat match goal with
                    | H : _ /\ _ |- _ => destruct H
                    | H : is_Some None |- _ => by destruct H
                    | H : is_Some (Some _) -> is_Some None |- _ => by destruct H; eauto
                    | H : ~ is_Some (Some _) |- _ => by destruct H; eauto
                    | H : ~ (_ /\ _) |- _ => by destruct H; split; eauto
                    | H : Some _ = None |- _ => discriminate H
                    | H : None <> None |- _ => by destruct H
                    end; fail).
      all: cbn [matches_count non_matched_manufacturer non_matched_product
                add_to_result without_product without_manufacturer].
      all: rewrite ?app_nil_r, ?length_app; cbn [length].
      all: rewrite <- ?Hc, <- ?Hm, <- ?Hp; repeat split; lia. }
    destruct Hgoal as (Hc' & Hm' & Hp' & Hsum').
    split; [exact Hc'|]. split; [exact Hm'|]. split; [exact Hp'|]. split; [exact Hsum'|].
    unfold debug_report.
    assert (length (non_matched_product st) + length (non_matched_manufacturer st)
            = length (lines ++ [l]) - matches_count st) as -> by lia.
    reflexivity.
Qed.

(** *** Missing keys *)

(** X4: the [KeyError] of a record names the first key that is missing
    in the order in which the code reads them: [manufacturer],
    [product_name], [model] for a catalog record (the lookup of the
    manufacturer in the index comes between the first two and does not
    change this), [manufacturer], [title] for a listing; a listing
    without one of its two keys ends the loop over the listings with a
    [KeyError], whatever was matched before it. *)
Theorem key_errors_name_the_first_missing_key :
  (forall ms r, r !! "manufacturer" = None ->
     prepare_product ms r = Raise (KeyError "manufacturer")) /\
  (forall ms r, is_Some (r !! "manufacturer") -> r !! "product_name" = None ->
     prepare_product ms r = Raise (KeyError "product_name")) /\
  (forall ms r, is_Some (r !! "manufacturer") -> is_Some (r !! "product_name") ->
     r !! "model" = None ->
     prepare_product ms r = Raise (KeyError "model")) /\
  (forall debug_mode ms st l, l !! "manufacturer" = None ->
     match_listing debug_mode ms st l = Raise (KeyError "manufacturer")) /\
  (forall debug_mode ms st l, is_Some (l !! "manufacturer") -> l !! "title" = None ->
     match_listing debug_mode ms st l = Raise (KeyError "title")) /\
  (forall debug_mode ms st before l after,
     Forall readable before -> ~ readable l ->
     exists key, match_loop debug_mode ms st (before ++ l :: after) = Raise (KeyError key)).
Proof.
  split; [|split; [|split; [|split; [|split]]]].
  - intros ms r Hman. unfold prepare_product, getitem. by rewrite Hman.
  - intros ms r [man Hman] Hpn. unfold prepare_product, getitem. rewrite Hman, Hpn. simpl.
    by destruct (list_find _ ms) as [[? ?]|].
  - intros ms r [man Hman] [pn Hpn] Hmo. unfold prepare_product, getitem.
    rewrite Hman, Hpn, Hmo. simpl. by destruct (list_find _ ms) as [[? ?]|].
  - intros debug_mode ms st l Hman. unfold match_listing, getitem. by rewrite Hman.
  - intros debug_mode ms st l [man Hman] Htitle. unfold match_listing, getitem.
    by rewrite Hman, Htitle.
  - intros debug_mode ms st before l after Hbefore Hl. revert st.
    induction Hbefore as [|l0 before [[man Hman] [title Htitle]] _ IH]; intros st; simpl.
    + unfold match_listing, getitem.
      destruct (l !! "manufacturer") as [man|] eqn:Hman; simpl; [|by eexists].
      destruct (l !! "title") as [title|] eqn:Htitle; simpl; [|by eexists].
      destruct Hl. split; by eexists.
    + rewrite (match_listing_total _ _ _ _ man title Hman Htitle). simpl. apply IH.
Qed.

(** *** Comparing manufacturers *)

(** X5: the comparisons of [Manufacturer] look at the name only:
    [__eq__] holds exactly for equal names, [__ne__] is its negation,
    of [a < b], [a == b] and [b < a] exactly one holds, and [__lt__] is
    transitive; this is what [sort] and [bisect_left] rely on. *)
Theorem manufacturers_compare_by_name (a b c : Manufacturer.t) :
  (Manufacturer.eq a b = true <-> Manufacturer.name a = Manufacturer.name b) /\
  Manufacturer.ne a b = negb (Manufacturer.eq a b) /\
  ((Manufacturer.lt a b = true /\ Manufacturer.eq a b = false /\ Manufacturer.lt b a = false) \/
   (Manufacturer.lt a b = false /\ Manufacturer.eq a b = true /\ Manufacturer.lt b a = false) \/
   (Manufacturer.lt a b = false /\ Manufacturer.eq a b = false /\ Manufacturer.lt b a = true)) /\
  (Manufacturer.lt a b = true -> Manufacturer.lt b c = true -> Manufacturer.lt a c = true).
Proof.
  unfold Manufacturer.eq, Manufacturer.ne, Manufacturer.lt.
  split; [apply String.eqb_eq|]. split; [reflexivity|]. split; [|apply str_lt_trans].
  destruct (String.eqb_spec (Manufacturer.name a) (Manufacturer.name b)) as [->|Hne].
  - right. left. by rewrite str_lt_irrefl.
  - destruct (str_lt (Manufacturer.name a) (Manufacturer.name b)) eqn:Hab.
    + left. repeat split. by apply str_lt_asym.
    + right. right. repeat split.
      destruct (str_lt (Manufacturer.name b) (Manufacturer.name a)) eqn:Hba; [done|].
      by destruct Hne; apply str_lt_total.
Qed.

(** *** The output *)

Lemma produce_output_entries (d0 d : dict) :
  (forall k, k ∈ keys d -> dict_get d0 k = dict_get d k) ->
  NoDup (keys d) ->
  omap (fun k => (fun v => (k, v)) <$> dict_get d0 k) (keys d) = d.
Proof.
  induction d as [|[k v] d IH]; intros Hsame Hnodup; [reflexivity|].
  apply NoDup_cons in Hnodup as [Hk Hnodup]. cbn [keys map fst omap list_omap].
  rewrite (Hsame k) by (by left). unfold dict_get at 1. cbn [find fst].
  rewrite String.eqb_refl. cbn [fmap option_fmap option_map snd]. f_equal.
  apply IH; [|done]. intros k' Hk'. rewrite (Hsame k') by (by right).
  unfold dict_get. cbn [find fst].
  destruct (String.eqb_spec k k') as [->|]; [done | reflexivity].
Qed.

Lemma total_listings_perm (d d' : dict) :
  Permutation d d' -> length (concat (map snd d)) = length (concat (map snd d')).
Proof.
  induction 1 as [|e d d' _ IH|e e' d|d d' d'' _ IH1 _ IH2]; simpl;
    rewrite ?length_app; lia.
Qed.

Lemma total_listings_append (d : dict) (k : string) (x : json) :
  dict_contains d k = true ->
  length (concat (map snd (dict_append d k x))) = S (length (concat (map snd d))).
Proof.
  unfold dict_contains. induction d as [|[k0 v0] d IH]; simpl; [discriminate|].
  destruct (String.eqb k0 k); simpl; intros Hk.
  - rewrite !length_app. simpl. lia.
  - rewrite !length_app, IH by done. lia.
Qed.

Lemma total_listings_add (debug_mode : bool) (st : state) (p : Product.t) (l : json) :
  length (concat (map snd (matches (add_to_result debug_mode st p l))))
  = S (length (concat (map snd (matches st)))).
Proof.
  unfold add_to_result. cbn [matches].
  destruct (dict_contains (matches st) (Product.name p)) eqn:Hc; cbn [negb].
  - by apply total_listings_append.
  - rewrite map_app, concat_app, length_app. simpl. lia.
Qed.

(** X6: [produce_output] writes exactly the entries of [self.matches],
    each with the list stored under its key, in some order; no line has
    an empty list of listings, and the listings written on all lines
    together are as many as the listings that resolve to a product. *)
Theorem output_is_the_result_set
    (debug_mode : bool) (manufacturers : list Manufacturer.t) (lines : list json)
    (st : state) :
  match_listings debug_mode manufacturers lines = Done st ->
  Permutation (produce_output st) (matches st) /\
  Forall (fun entry => entry.2 <> []) (produce_output st) /\
  length (concat (map snd (produce_output st)))
    = length (filter (fun l => is_Some (listing_product manufacturers l)) lines).
Proof.
  intros Hrun.
  assert (Hnodup : NoDup (keys (matches st))).
  { rewrite (match_loop_keys debug_mode manufacturers lines [] initial st eq_refl Hrun).
    apply first_seen_NoDup. }
  assert (Hperm : Permutation (produce_output st) (matches st)).
  { unfold produce_output. fold (keys (matches st)).
    rewrite (dict_iteration_order_perm (keys (matches st))).
    by rewrite produce_output_entries. }
  split; [exact Hperm|]. split.
  - rewrite Hperm. apply Forall_forall. intros [k v] Hin Hnil. simpl in Hnil. subst v.
    assert (Hget : dict_get (matches st) k = Some []).
    { clear -Hin Hnodup. induction (matches st) as [|[k0 v0] d IH]; [by inversion Hin|].
      apply NoDup_cons in Hnodup as [Hk0 Hnodup]. unfold dict_get. cbn [find fst].
      apply elem_of_cons in Hin as [[= <- <-]|Hin].
      - by rewrite String.eqb_refl.
      - destruct (String.eqb_spec k0 k) as [->|]; [|by apply IH].
        destruct Hk0. apply list_elem_of_fmap. by exists (k, []). }
    rewrite (match_loop_matches debug_mode manufacturers lines st k Hrun) in Hget.
    by destruct (listings_of manufacturers k lines).
  - rewrite (total_listings_perm _ _ Hperm). clear Hnodup Hperm. revert st Hrun.
    unfold match_listings.
    induction lines as [|l lines IH] using rev_ind; intros st.
    + by intros [= <-].
    + rewrite match_loop_snoc.
      destruct (match_loop debug_mode manufacturers initial lines) as [st0| |];
        try discriminate.
      intros Hstep. specialize (IH st0 eq_refl). apply match_listing_step in Hstep.
      rewrite filter_app, filter_cons, filter_nil, length_app.
      destruct (listing_product manufacturers l) as [p|].
      * subst st. rewrite total_listings_add, IH.
        rewrite decide_True by eauto. simpl. lia.
      * rewrite decide_False by (by intros [? ?]). simpl. rewrite Nat.add_0_r, <- IH.
        subst st. destruct (listing_manufacturer manufacturers l);
          unfold without_product, without_manufacturer; by destruct debug_mode.
Qed.

(** *** The lists of a manufacturer *)

Lemma filter_snoc_in {A} (P : A -> Prop) `{!forall x, Decision (P x)} (l : list A) (x : A) :
  P x -> filter P (l ++ [x]) = filter P l ++ [x].
Proof. intros Hx. by rewrite filter_app, filter_cons, decide_True, filter_nil. Qed.

Lemma filter_snoc_out {A} (P : A -> Prop) `{!forall x, Decision (P x)} (l : list A) (x : A) :
  ~ P x -> filter P (l ++ [x]) = filter P l.
Proof.
  intros Hx. by rewrite filter_app, filter_cons, decide_False, filter_nil, app_nil_r.
Qed.

Lemma filter_nothing {A} (P : A -> Prop) `{!forall x, Decision (P x)} (l : list A) :
  (forall x, x ∈ l -> ~ P x) -> filter P l = [].
Proof.
  induction l as [|x l IH]; intros Hno; [reflexivity|].
  rewrite filter_cons, decide_False by (apply Hno; by left).
  apply IH. intros y Hy. apply Hno. by right.
Qed.

Lemma partitioned_new (n : string) : partitioned (Manufacturer.new n).
Proof. repeat split. constructor. Qed.

Lemma partitioned_add_product (m : Manufacturer.t) (p : Product.t) :
  partitioned m -> partitioned (Manufacturer.add_product m p).
Proof.
  intros (Horphans & Hfamilies & Hnames). unfold partitioned, Manufacturer.add_product.
  destruct (Product.family p) as [fam|] eqn:Hfam;
    cbn [Manufacturer.orphans_products Manufacturer.products Manufacturer.families].
  - assert (Hfiled : filed_under p = Some (normalize_str fam))
      by (unfold filed_under; by rewrite Hfam).
    assert (Hin : normalize_str fam ∈ Family.name <$> Manufacturer.families m <->
                  normalize_str fam ∈ omap filed_under (Manufacturer.products m))
      by (by rewrite Hnames, elem_of_first_seen).
    assert (Hnodup : NoDup (Family.name <$> Manufacturer.families m))
      by (rewrite Hnames; apply first_seen_NoDup).
    split; [|split].
    + rewrite filter_snoc_out; [done|]. by rewrite Hfiled.
    + unfold Manufacturer.add_to_family.
      destruct (list_find _ (Manufacturer.families m)) as [[i f]|] eqn:Hfind.
      * apply list_find_Some in Hfind as (Hi & Hname & _).
        apply Forall_lookup. intros j g Hj.
        destruct (decide (i = j)) as [<-|Hij].
        -- rewrite list_lookup_insert_eq in Hj by (by eapply lookup_lt_Some).
           injection Hj as <-. cbn [Family.add_product Family.products Family.name].
           rewrite filter_snoc_in by (by rewrite Hfiled, Hname). f_equal.
           rewrite Forall_forall in Hfamilies. apply Hfamilies.
           by eapply list_elem_of_lookup_2.
        -- rewrite list_lookup_insert_ne in Hj by done.
           rewrite filter_snoc_out.
           ++ rewrite Forall_forall in Hfamilies. apply Hfamilies.
              by eapply list_elem_of_lookup_2.
           ++ rewrite Hfiled. intros [= Hg]. apply Hij.
              apply (NoDup_lookup _ i j (Family.name f) Hnodup);
                rewrite list_lookup_fmap; [by rewrite Hi | by rewrite Hj, Hname, Hg].
      * rewrite list_find_None in Hfind. apply Forall_app. split.
        -- apply Forall_forall. intros g Hg. rewrite filter_snoc_out.
           ++ rewrite Forall_forall in Hfamilies. by apply Hfamilies.
           ++ rewrite Hfiled. intros [= Hname]. rewrite Forall_forall in Hfind.
              by destruct (Hfind g Hg).
        -- constructor; [|constructor].
           cbn [Family.add_product Family.new Family.products Family.name].
           assert (Hidem : normalize_str (normalize_str fam) = normalize_str fam)
             by apply lower_idempotent.
           rewrite Hidem, filter_snoc_in by done.
           rewrite filter_nothing; [done|]. intros q Hq Hfq.
           assert (Hmem : normalize_str fam ∈ omap filed_under (Manufacturer.products m))
             by (apply list_elem_of_omap; by exists q).
           apply Hin in Hmem. apply list_elem_of_fmap in Hmem as (g & Hg & Hgin).
           rewrite Forall_forall in Hfind. by destruct (Hfind g Hgin).
    + rewrite add_to_family_names, omap_app. cbn [omap list_omap]. rewrite Hfiled.
      cbn [omap list_omap]. rewrite first_seen_snoc, <- Hnames.
      destruct (decide (normalize_str fam ∈ Family.name <$> Manufacturer.families m))
        as [Hyes|Hno].
      * rewrite decide_True; [done | by apply Hin].
      * rewrite decide_False; [done | by rewrite <- Hin].
  - assert (Hfiled : filed_under p = None) by (unfold filed_under; by rewrite Hfam).
    split; [|split].
    + by rewrite filter_snoc_in, Horphans.
    + eapply Forall_impl; [exact Hfamilies|]. intros f Hf. cbn beta in *.
      rewrite filter_snoc_out; [done|]. by rewrite Hfiled.
    + rewrite omap_app. cbn [omap list_omap]. rewrite Hfiled. cbn [omap list_omap].
      by rewrite app_nil_r.
Qed.

(** *** The index as a function of the catalog *)

Lemma add_product_name (m : Manufacturer.t) (p : Product.t) :
  Manufacturer.name (Manufacturer.add_product m p) = Manufacturer.name m.
Proof. unfold Manufacturer.add_product. by destruct (Product.family p). Qed.

Lemma add_product_products (m : Manufacturer.t) (p : Product.t) :
  Manufacturer.products (Manufacturer.add_product m p) = Manufacturer.products m ++ [p].
Proof. unfold Manufacturer.add_product. by destruct (Product.family p). Qed.

Lemma prepare_product_cases (ms ms' : list Manufacturer.t) (r : json) :
  prepare_product ms r = Done ms' ->
  exists man p,
    r !! "manufacturer" = Some man /\ product_of r = Some p /\
    ((exists i m0, ms !! i = Some m0 /\ Manufacturer.name m0 = normalize_str man /\
                   ms' = <[i := Manufacturer.add_product m0 p]> ms) \/
     ((forall m, m ∈ ms -> Manufacturer.name m <> normalize_str man) /\
      ms' = ms ++ [Manufacturer.add_product (Manufacturer.new (normalize_str man)) p])).
Proof.
  unfold prepare_product, getitem, product_of.
  destruct (r !! "manufacturer") as [man|] eqn:Hman; simpl; [|discriminate].
  destruct (list_find _ ms) as [[i m0]|] eqn:Hfind;
    (destruct (r !! "product_name") as [pn|] eqn:Hpn; simpl; [|discriminate];
     destruct (r !! "model") as [mo|] eqn:Hmo; simpl; [|discriminate];
     destruct (Product.new pn (r !! "family") mo) as [p| |] eqn:Hp; simpl;
       try discriminate; intros [= <-]; exists man, p; split; [done|]; split; [done|]).
  - apply list_find_Some in Hfind as (Hi & Hname & _). left. exists i, m0.
    repeat split; try done.
    apply list_eq. intros j. rewrite list_lookup_alter, list_lookup_insert.
    destruct (decide (i = j)) as [<-|]; [|by rewrite decide_False by tauto].
    rewrite Hi. simpl. rewrite decide_True; [done|].
    split; [done|]. by eapply lookup_lt_Some.
  - rewrite list_find_None in Hfind. right. split.
    + intros m Hm. rewrite Forall_forall in Hfind. by apply Hfind.
    + apply list_eq. intros j. rewrite list_lookup_alter.
      destruct (decide (length ms = j)) as [<-|Hne].
      * by rewrite !lookup_app_r, Nat.sub_diag by lia.
      * destruct (decide (j < length ms)).
        -- by rewrite !lookup_app_l by done.
        -- rewrite !lookup_ge_None_2; [done|rewrite length_app; simpl; lia..].
Qed.

Lemma prepare_product_keeps (Q : Manufacturer.t -> Prop) (ms ms' : list Manufacturer.t)
    (r : json) :
  (forall n p, Q (Manufacturer.add_product (Manufacturer.new n) p)) ->
  (forall m p, Q m -> Q (Manufacturer.add_product m p)) ->
  Forall Q ms -> prepare_product ms r = Done ms' -> Forall Q ms'.
Proof.
  intros Hnew Hadd Hms (man & p & _ & _ & Hcase)%prepare_product_cases.
  destruct Hcase as [(i & m0 & Hi & _ & ->)|[_ ->]].
  - apply Forall_insert; [done|]. apply Hadd.
    rewrite Forall_forall in Hms. apply Hms. by eapply list_elem_of_lookup_2.
  - apply Forall_app. split; [done|]. constructor; [|constructor]. apply Hnew.
Qed.

Lemma prepare_products_data_keeps (Q : Manufacturer.t -> Prop) (lines : list json)
    (ms : list Manufacturer.t) :
  (forall n p, Q (Manufacturer.add_product (Manufacturer.new n) p)) ->
  (forall m p, Q m -> Q (Manufacturer.add_product m p)) ->
  prepare_products_data lines = Done ms -> Forall Q ms.
Proof.
  intros Hnew Hadd. unfold prepare_products_data.
  destruct (prepare_loop [] lines) as [ms0| |] eqn:Hrun; simpl; try discriminate.
  intros [= <-]. rewrite (sort_perm Manufacturer.lt ms0).
  assert (Hgen : forall ms1 ms2, Forall Q ms1 -> prepare_loop ms1 lines = Done ms2 ->
                                 Forall Q ms2).
  { clear ms0 Hrun. induction lines as [|r lines IH]; simpl; intros ms1 ms2 Hms1.
    - by intros [= <-].
    - destruct (prepare_product ms1 r) as [ms3| |] eqn:Hstep; simpl; try discriminate.
      apply IH. by eapply prepare_product_keeps. }
  by apply (Hgen [] ms0).
Qed.

Lemma prepare_loop_snoc (lines : list json) (r : json) (ms : list Manufacturer.t) :
  prepare_loop ms (lines ++ [r]) =
  match prepare_loop ms lines with
  | Done ms' => prepare_product ms' r
  | Raise e => Raise e
  | Unmodelled => Unmodelled
  end.
Proof.
  revert ms. induction lines as [|r0 lines IH]; intros ms; simpl.
  - by destruct (prepare_product ms r).
  - destruct (prepare_product ms r0); simpl; [apply IH|done..].
Qed.

Lemma products_for_snoc (n : string) (lines : list json) (r : json) (man : string)
    (p : Product.t) :
  r !! "manufacturer" = Some man -> product_of r = Some p ->
  products_for n (lines ++ [r]) =
  if decide (normalize_str man = n) then products_for n lines ++ [p]
  else products_for n lines.
Proof.
  intros Hman Hp. unfold products_for, record_manufacturer.
  rewrite filter_app, filter_cons, filter_nil, Hman. cbn [fmap option_fmap option_map].
  destruct (decide (normalize_str man = n)) as [->|Hne].
  - rewrite decide_True by done. rewrite omap_app. cbn [omap list_omap]. by rewrite Hp.
  - rewrite decide_False by congruence. by rewrite app_nil_r.
Qed.

Lemma prepare_loop_index (lines : list json) (ms : list Manufacturer.t) :
  prepare_loop [] lines = Done ms ->
  Manufacturer.name <$> ms = first_seen (omap record_manufacturer lines) /\
  (forall m, m ∈ ms ->
     Manufacturer.products m = products_for (Manufacturer.name m) lines) /\
  length (concat (Manufacturer.products <$> ms)) = length lines.
Proof.
  revert ms. induction lines as [|r lines IH] using rev_ind; intros ms.
  - intros [= <-]. repeat split. intros m Hm. by inversion Hm.
  - rewrite prepare_loop_snoc.
    destruct (prepare_loop [] lines) as [ms0| |]; try discriminate.
    destruct (IH ms0 eq_refl) as (Hnames & Hproducts & Hcount).
    intros (man & p & Hman & Hp & Hcase)%prepare_product_cases.
    assert (Hnodup : NoDup (Manufacturer.name <$> ms0))
      by (rewrite Hnames; apply first_seen_NoDup).
    assert (Hrec : omap record_manufacturer (lines ++ [r])
                   = omap record_manufacturer lines ++ [normalize_str man]).
    { rewrite omap_app. cbn [omap list_omap]. unfold record_manufacturer at 2.
      by rewrite Hman. }
    rewrite Hrec, first_seen_snoc, <- Hnames.
    assert (Hmem : normalize_str man ∈ omap record_manufacturer lines <->
                   normalize_str man ∈ Manufacturer.name <$> ms0)
      by (by rewrite Hnames, elem_of_first_seen).
    destruct Hcase as [(i & m0 & Hi & Hname & ->)|[Hfresh ->]].
    + assert (Hin : normalize_str man ∈ Manufacturer.name <$> ms0).
      { apply list_elem_of_fmap. exists m0. split; [done|].
        by eapply list_elem_of_lookup_2. }
      rewrite decide_True by (by apply Hmem). split; [|split].
      * rewrite list_fmap_insert, add_product_name. apply list_insert_id.
        by rewrite list_lookup_fmap, Hi.
      * intros m (j & Hj)%list_elem_of_lookup.
        rewrite (products_for_snoc _ _ _ man p Hman Hp).
        destruct (decide (i = j)) as [<-|Hij].
        -- rewrite list_lookup_insert_eq in Hj by (by eapply lookup_lt_Some).
           injection Hj as <-. rewrite add_product_name, add_product_products.
           rewrite decide_True by done. f_equal. apply Hproducts.
           by eapply list_elem_of_lookup_2.
        -- rewrite list_lookup_insert_ne in Hj by done.
           rewrite decide_False.
           ++ apply Hproducts. by eapply list_elem_of_lookup_2.
           ++ intros Heq. apply Hij.
              apply (NoDup_lookup _ i j (Manufacturer.name m0) Hnodup);
                rewrite list_lookup_fmap; [by rewrite Hi | by rewrite Hj, Hname, Heq].
      * rewrite insert_take_drop by (by eapply lookup_lt_Some).
        rewrite <- (take_drop_middle ms0 i m0 Hi) in Hcount.
        rewrite !fmap_app, !fmap_cons, !concat_app, !concat_cons, !length_app in *.
        rewrite add_product_products, !length_app. simpl. lia.
    + assert (Hnin : normalize_str man ∉ Manufacturer.name <$> ms0).
      { intros (m & Hm & Hmin)%list_elem_of_fmap. by destruct (Hfresh m Hmin). }
      rewrite decide_False by (by rewrite Hmem). split; [|split].
      * rewrite fmap_app. cbn [fmap list_fmap]. rewrite add_product_name.
        cbn [Manufacturer.new Manufacturer.name]. unfold normalize_str.
        by rewrite lower_idempotent.
      * intros m [Hm|Hm]%elem_of_app;
          rewrite (products_for_snoc _ _ _ man p Hman Hp).
        -- rewrite decide_False by (intros Heq; by destruct (Hfresh m Hm)).
           by apply Hproducts.
        -- apply list_elem_of_singleton in Hm. subst m.
           rewrite add_product_name, add_product_products.
           cbn [Manufacturer.new Manufacturer.name Manufacturer.products].
           assert (Hidem : normalize_str (normalize_str man) = normalize_str man)
             by apply lower_idempotent.
           rewrite Hidem, decide_True by done. cbn [app]. f_equal.
           unfold products_for. rewrite filter_nothing; [done|].
           intros r0 Hr0 Hrm. apply Hnin, Hmem, list_elem_of_omap. by exists r0.
      * rewrite fmap_app, concat_app, !length_app. cbn [fmap list_fmap concat].
        rewrite add_product_products, app_nil_r, length_app. simpl. lia.
Qed.

Lemma prepare_products_data_loop (catalog : list json) (ms : list Manufacturer.t) :
  prepare_products_data catalog = Done ms ->
  exists ms0, prepare_loop [] catalog = Done ms0 /\ Permutation ms ms0.
Proof.
  unfold prepare_products_data.
  destruct (prepare_loop [] catalog) as [ms0| |]; simpl; try discriminate.
  intros [= <-]. exists ms0. split; [done|]. apply sort_perm.
Qed.

Lemma prepare_products_data_index (catalog : list json) (ms : list Manufacturer.t) :
  prepare_products_data catalog = Done ms ->
  Permutation (Manufacturer.name <$> ms) (first_seen (omap record_manufacturer catalog)) /\
  NoDup (Manufacturer.name <$> ms) /\
  (forall m, m ∈ ms ->
     Manufacturer.products m = products_for (Manufacturer.name m) catalog) /\
  length (concat (Manufacturer.products <$> ms)) = length catalog.
Proof.
  intros (ms0 & Hloop & Hperm)%prepare_products_data_loop.
  apply prepare_loop_index in Hloop as (Hnames & Hproducts & Hcount).
  assert (Hpn : Permutation (Manufacturer.name <$> ms)
                            (first_seen (omap record_manufacturer catalog)))
    by (by rewrite Hperm, Hnames).
  split; [done|]. split; [|split].
  - rewrite Hpn. apply first_seen_NoDup.
  - intros m Hm. apply Hproducts. by rewrite <- Hperm.
  - rewrite <- Hcount. apply Permutation_length. by rewrite Hperm.
Qed.

Lemma sorted_lookup {A} (R : A -> A -> Prop) (l : list A) (i j : nat) (a b : A) :
  StronglySorted R l -> i < j -> l !! i = Some a -> l !! j = Some b -> R a b.
Proof.
  intros Hs. revert i j. induction Hs as [|x l Hl IH Hx]; intros i j Hij Hi Hj.
  - by rewrite lookup_nil in Hi.
  - destruct j as [|j]; [lia|]. simpl in Hj. destruct i as [|i]; simpl in Hi.
    + injection Hi as <-. rewrite Forall_forall in Hx. apply Hx.
      by eapply list_elem_of_lookup_2.
    + apply (IH i j); [lia|done..].
Qed.

Lemma contains_itself (s : string) : contains s s = true.
Proof.
  apply contains_spec. exists "", "". rewrite append_empty_l.
  induction s as [|c s IH]; [reflexivity|]. by rewrite append_cons, <- IH.
Qed.

(** In a sorted index without two manufacturers of one name, the
    search for the name of an entry ends on this entry. *)
Lemma find_manufacturer_exact (ms : list Manufacturer.t) (m : Manufacturer.t) (x : string) :
  StronglySorted (no_later Manufacturer.lt) ms ->
  NoDup (Manufacturer.name <$> ms) ->
  m ∈ ms -> Manufacturer.name m = normalize_str x ->
  find_manufacturer ms (normalize_str x) = Some m.
Proof.
  intros Hsorted Hnodup (j & Hj)%list_elem_of_lookup Hname. unfold find_manufacturer.
  pose proof (bisect_left_insertion_point Manufacturer.lt manufacturer_le_lt_trans ms
                (Manufacturer.new (normalize_str x)) Hsorted) as (Hlen & Hbelow & Hfrom).
  set (i := bisect_left Manufacturer.lt ms (Manufacturer.new (normalize_str x))) in *.
  assert (Hnew : Manufacturer.name (Manufacturer.new (normalize_str x)) = normalize_str x)
    by apply lower_idempotent.
  assert (Hij : i <= j).
  { destruct (decide (i <= j)) as [|Hlt]; [done|].
    assert (Hm : Manufacturer.lt m (Manufacturer.new (normalize_str x)) = true)
      by (apply (Hbelow j); [lia|done]).
    unfold Manufacturer.lt in Hm. rewrite Hnew, Hname, str_lt_irrefl in Hm. discriminate. }
  assert (Hi : exists mi, ms !! i = Some mi).
  { apply lookup_lt_is_Some. apply lookup_lt_Some in Hj. lia. }
  destruct Hi as [mi Hi].
  assert (Heq : i = j).
  { destruct (decide (i = j)) as [|Hne]; [done|].
    assert (Hnames : Manufacturer.name mi = Manufacturer.name m).
    { apply str_lt_total.
      - specialize (Hfrom i mi (Nat.le_refl _) Hi). unfold Manufacturer.lt in Hfrom.
        by rewrite Hnew, <- Hname in Hfrom.
      - apply (sorted_lookup _ ms i j mi m Hsorted); [lia|done..]. }
    apply (NoDup_lookup _ i j (Manufacturer.name mi) Hnodup);
      rewrite list_lookup_fmap; [by rewrite Hi | by rewrite Hj, Hnames]. }
  subst j. unfold candidate. by rewrite Hj, Hname, contains_itself.
Qed.

Lemma find_manufacturer_in (ms : list Manufacturer.t) (n : string) (m : Manufacturer.t) :
  find_manufacturer ms n = Some m -> m ∈ ms /\ substring n (Manufacturer.name m).
Proof.
  unfold find_manufacturer.
  destruct (candidate ms n (bisect_left _ _ _)) as [m'|] eqn:Hc.
  - intros [= <-]. apply candidate_spec in Hc as [Hm Hs]. split; [|done].
    by eapply list_elem_of_lookup_2.
  - destruct (bisect_left _ _ _) as [|before]; [discriminate|].
    intros [Hm Hs]%candidate_spec. split; [|done]. by eapply list_elem_of_lookup_2.
Qed.

Lemma first_match_in (ps : list Product.t) (t : string) (p : Product.t) :
  first_match ps t = Some p -> p ∈ ps /\ Re.search (Product.whole_model_re p) t = true.
Proof.
  unfold first_match. intros (i & Hi & Hp & _)%find_first. split; [|done].
  by eapply list_elem_of_lookup_2.
Qed.

Lemma partitioned_members (m : Manufacturer.t) :
  partitioned m ->
  (forall q, q ∈ Manufacturer.orphans_products m <->
             q ∈ Manufacturer.products m /\ filed_under q = None) /\
  (forall f q, f ∈ Manufacturer.families m ->
     (q ∈ Family.products f <->
      q ∈ Manufacturer.products m /\ filed_under q = Some (Family.name f))).
Proof.
  intros (Horphans & Hfamilies & _). split.
  - intros q. rewrite Horphans, list_elem_of_filter. tauto.
  - intros f q Hf. rewrite Forall_forall in Hfamilies.
    rewrite (Hfamilies f Hf), list_elem_of_filter. tauto.
Qed.

(** X7: [Manufacturer.add_product] keeps the lists of a manufacturer in
    step: when the orphans are the products without family, each family
    holds the products filed under its name, and the families are the
    family names in the order of their first product, then the same is
    true after a product is added, the name is unchanged and the product
    is last in [products]; in such a manufacturer a product is among the
    orphans exactly when it has no family, in a family exactly when it
    is filed under that family's name, no two families have one name
    and no family is empty. *)
Theorem add_product_partitions_by_family (m : Manufacturer.t) (p : Product.t) :
  partitioned m ->
  partitioned (Manufacturer.add_product m p) /\
  Manufacturer.name (Manufacturer.add_product m p) = Manufacturer.name m /\
  Manufacturer.products (Manufacturer.add_product m p) = Manufacturer.products m ++ [p] /\
  (forall q, q ∈ Manufacturer.orphans_products m <->
             q ∈ Manufacturer.products m /\ filed_under q = None) /\
  (forall f q, f ∈ Manufacturer.families m ->
     (q ∈ Family.products f <->
      q ∈ Manufacturer.products m /\ filed_under q = Some (Family.name f))) /\
  NoDup (Family.name <$> Manufacturer.families m) /\
  (forall f, f ∈ Manufacturer.families m -> Family.products f <> []).
Proof.
  intros Hm. split; [by apply partitioned_add_product|].
  split; [apply add_product_name|]. split; [apply add_product_products|].
  destruct (partitioned_members m Hm) as [Horphans Hfamilies].
  split; [done|]. split; [done|].
  destruct Hm as (_ & _ & Hnames). split.
  - rewrite Hnames. apply first_seen_NoDup.
  - intros f Hf Hnil.
    assert (Hin : Family.name f ∈ Family.name <$> Manufacturer.families m)
      by (apply list_elem_of_fmap; by exists f).
    rewrite Hnames, elem_of_first_seen, list_elem_of_omap in Hin.
    destruct Hin as (q & Hq & Hfiled).
    assert (Hqf : q ∈ Family.products f) by (by apply Hfamilies).
    rewrite Hnil in Hqf. by inversion Hqf.
Qed.

(** X8: the index that [prepare_products_data] builds has one
    manufacturer for each distinct normalized manufacturer name of the
    catalog and no other; the names strictly ascend along the index;
    the products of a manufacturer are the products of the catalog
    records of that name, in the order of the catalog, there is at
    least one of them, and they are split into families and orphans as
    in X7; the index has as many products as the catalog has records. *)
Theorem index_groups_catalog_by_manufacturer (catalog : list json)
    (ms : list Manufacturer.t) :
  prepare_products_data catalog = Done ms ->
  Permutation (Manufacturer.name <$> ms) (first_seen (omap record_manufacturer catalog)) /\
  (forall i j a b, i < j -> ms !! i = Some a -> ms !! j = Some b ->
     Manufacturer.lt a b = true) /\
  (forall m, m ∈ ms ->
     Manufacturer.products m = products_for (Manufacturer.name m) catalog /\
     Manufacturer.products m <> [] /\
     partitioned m) /\
  length (concat (Manufacturer.products <$> ms)) = length catalog.
Proof.
  intros Hrun.
  destruct (prepare_products_data_index catalog ms Hrun)
    as (Hnames & Hnodup & Hproducts & Hcount).
  destruct (prepare_products_data_sorted catalog ms Hrun) as [Hsorted _].
  split; [done|]. split; [|split; [|done]].
  - intros i j a b Hij Hi Hj.
    pose proof (sorted_lookup _ ms i j a b Hsorted Hij Hi Hj) as Hba.
    unfold no_later in Hba. unfold Manufacturer.lt in *.
    destruct (str_lt (Manufacturer.name a) (Manufacturer.name b)) eqn:Hab; [done|].
    exfalso. assert (i = j); [|lia].
    apply (NoDup_lookup _ i j (Manufacturer.name a) Hnodup);
      rewrite list_lookup_fmap; [by rewrite Hi|].
    rewrite Hj. simpl. f_equal. symmetry. by apply str_lt_total.
  - intros m Hm. split; [by apply Hproducts|]. split.
    + assert (Hall : Forall (fun m => Manufacturer.products m <> []) ms).
      { apply (prepare_products_data_keeps _ catalog); [| |done].
        - intros n p. rewrite add_product_products. by destruct (Manufacturer.products _).
        - intros m0 p _. rewrite add_product_products.
          by destruct (Manufacturer.products _). }
      rewrite Forall_forall in Hall. by apply Hall.
    + assert (Hall : Forall partitioned ms).
      { apply (prepare_products_data_keeps _ catalog); [| |done].
        - intros n p. apply partitioned_add_product, partitioned_new.
        - intros m0 p. apply partitioned_add_product. }
      rewrite Forall_forall in Hall. by apply Hall.
Qed.

(** X9: a listing whose manufacturer has the same normalized form as
    the manufacturer of a catalog record (the two differ at most in the
    case of their letters, ASCII or not) is given the manufacturer of
    exactly that name (not another one whose name contains it), with
    the products of all catalog records of that name; the product of
    the listing is then the product its title resolves to in this
    manufacturer. *)
Theorem catalog_manufacturer_is_found (catalog : list json) (ms : list Manufacturer.t)
    (r listing : json) (man man' : string) :
  prepare_products_data catalog = Done ms ->
  r ∈ catalog -> r !! "manufacturer" = Some man ->
  listing !! "manufacturer" = Some man' -> normalize_str man' = normalize_str man ->
  exists m, listing_manufacturer ms listing = Some m /\ m ∈ ms /\
            Manufacturer.name m = normalize_str man /\
            Manufacturer.products m = products_for (normalize_str man) catalog /\
            forall title, listing !! "title" = Some title ->
              listing_product ms listing = resolve_product m (normalize_str title).
Proof.
  intros Hrun Hr Hman Hman' Hsame.
  destruct (prepare_products_data_index catalog ms Hrun)
    as (Hnames & Hnodup & Hproducts & _).
  destruct (prepare_products_data_sorted catalog ms Hrun) as [Hsorted _].
  assert (Hin : normalize_str man ∈ Manufacturer.name <$> ms).
  { rewrite Hnames, elem_of_first_seen, list_elem_of_omap. exists r. split; [done|].
    unfold record_manufacturer. by rewrite Hman. }
  apply list_elem_of_fmap in Hin as (m & Hname & Hm).
  assert (Hfound : listing_manufacturer ms listing = Some m).
  { unfold listing_manufacturer. rewrite Hman', Hsame. by apply find_manufacturer_exact. }
  exists m. split; [done|]. split; [done|]. split; [done|]. split.
  - rewrite Hname. by apply Hproducts.
  - intros title Htitle. unfold listing_product. by rewrite Hfound, Htitle.
Qed.

(** X10: a listing is never matched without cause: when a listing
    resolves to a product over the index of a catalog, the listing has a
    manufacturer and a title, the normalized manufacturer occurs in the
    name of a manufacturer of the index, the product was built from a
    catalog record of that manufacturer, its pattern is found in the
    normalized title, its family, if it has one, occurs in the
    normalized title, and when the model of the record is made of
    ordinary characters the normalized model occurs in the normalized
    title as a whole token. *)
Theorem a_match_is_justified (catalog : list json) (ms : list Manufacturer.t)
    (listing : json) (p : Product.t) :
  prepare_products_data catalog = Done ms ->
  listing_product ms listing = Some p ->
  exists man title m r,
    listing !! "manufacturer" = Some man /\ listing !! "title" = Some title /\
    m ∈ ms /\ substring (normalize_str man) (Manufacturer.name m) /\
    r ∈ catalog /\ record_manufacturer r = Some (Manufacturer.name m) /\
    product_of r = Some p /\
    Re.search (Product.whole_model_re p) (normalize_str title) = true /\
    (forall fam, Product.family p = Some fam -> substring fam (normalize_str title)) /\
    (forall model, r !! "model" = Some model -> Re.ordinary (normalize_str model) = true ->
       Re.whole_token (normalize_str model) (normalize_str title)).
Proof.
  intros Hrun. unfold listing_product, listing_manufacturer.
  destruct (listing !! "manufacturer") as [man|] eqn:Hman; [|done].
  destruct (find_manufacturer ms (normalize_str man)) as [m|] eqn:Hfind; [|done].
  destruct (listing !! "title") as [title|] eqn:Htitle; [|done].
  apply find_manufacturer_in in Hfind as [Hm Hsub].
  destruct (prepare_products_data_index catalog ms Hrun) as (_ & _ & Hproducts & _).
  assert (Hpart : partitioned m).
  { assert (Hall : Forall partitioned ms).
    { apply (prepare_products_data_keeps _ catalog); [| |done].
      - intros n q. apply partitioned_add_product, partitioned_new.
      - intros m0 q. apply partitioned_add_product. }
    rewrite Forall_forall in Hall. by apply Hall. }
  destruct (partitioned_members m Hpart) as [Horphans Hfamilies].
  unfold resolve_product. intros Hres.
  assert (Hp : p ∈ Manufacturer.products m /\
               Re.search (Product.whole_model_re p) (normalize_str title) = true /\
               forall n, filed_under p = Some n -> substring n (normalize_str title)).
  { destruct (find (family_resolves (normalize_str title)) (Manufacturer.families m))
      as [f|] eqn:Hf.
    - apply find_first in Hf as (i & Hi & Hresolves & _).
      apply list_elem_of_lookup_2 in Hi.
      apply first_match_in in Hres as [Hin Hsearch].
      apply (Hfamilies f p Hi) in Hin as [Hin Hfiled].
      split; [done|]. split; [done|]. intros n Hn. rewrite Hfiled in Hn.
      injection Hn as <-. unfold family_resolves in Hresolves.
      apply andb_true_iff in Hresolves as [Hc _]. by apply contains_spec.
    - apply first_match_in in Hres as [Hin Hsearch].
      apply Horphans in Hin as [Hin Hfiled].
      split; [done|]. split; [done|]. intros n Hn. congruence. }
  destruct Hp as (Hin & Hsearch & Hfam).
  rewrite (Hproducts m Hm) in Hin. unfold products_for in Hin.
  apply list_elem_of_omap in Hin as (r & Hr & Hpr).
  apply list_elem_of_filter in Hr as [Hrm Hr].
  exists man, title, m, r. repeat split; try done.
  - intros fam Hfamp. apply Hfam. unfold filed_under. rewrite Hfamp. simpl. f_equal.
    unfold product_of in Hpr.
    destruct (r !! "product_name") as [pn|]; [|done].
    destruct (r !! "model") as [mo|]; [|done]. rewrite product_new_spec in Hpr.
    destruct (encodable _); [|done].
    destruct (Re.compile _); try done. injection Hpr as <-. simpl in Hfamp.
    destruct (r !! "family") as [x|]; simpl in Hfamp; [|done].
    injection Hfamp as <-. apply lower_idempotent.
  - intros model Hmodel Hord. unfold product_of in Hpr. rewrite Hmodel in Hpr.
    destruct (r !! "product_name") as [pn|]; [|done]. rewrite product_new_spec in Hpr.
    destruct (encodable _); [|done].
    rewrite (compile_ordinary _ Hord) in Hpr. injection Hpr as <-.
    simpl in Hsearch. by apply search_whole_model.
Qed.

(** *** Input that is always processed *)

Lemma prepare_product_plain (ms : list Manufacturer.t) (r : json) :
  plain_record r -> exists ms', prepare_product ms r = Done ms'.
Proof.
  intros ([man Hman] & [pn Hpn] & model & Hmodel & Henc & Hord).
  unfold prepare_product, getitem. rewrite Hman, Hpn, Hmodel. simpl.
  rewrite product_new_spec, Henc, (compile_ordinary _ Hord).
  destruct (list_find _ ms) as [[i m]|]; simpl; by eexists.
Qed.

Lemma prepare_loop_plain (lines : list json) (ms : list Manufacturer.t) :
  Forall plain_record lines -> exists ms', prepare_loop ms lines = Done ms'.
Proof.
  intros Hlines. revert ms. induction Hlines as [|r lines Hr _ IH]; intros ms; simpl.
  - by eexists.
  - destruct (prepare_product_plain ms r Hr) as [ms1 ->]. simpl. apply IH.
Qed.

Lemma match_loop_readable (debug_mode : bool) (ms : list Manufacturer.t)
    (lines : list json) (st : state) :
  Forall readable lines -> exists st', match_loop debug_mode ms st lines = Done st'.
Proof.
  intros Hlines. revert st.
  induction Hlines as [|l lines [[man Hman] [title Htitle]] _ IH]; intros st; simpl.
  - by eexists.
  - rewrite (match_listing_total _ _ _ _ man title Hman Htitle). simpl. apply IH.
Qed.

(** X11: [run] completes on well-formed input: when every catalog
    record has a manufacturer, a display name and a model made of ASCII
    characters that are ordinary in a pattern, and every listing has a
    manufacturer and a title, the index is built, the listings are all
    read, and [run] writes the output of the state so reached, in
    either mode. *)
Theorem plain_input_is_processed (debug_mode : bool) (catalog listings : list json) :
  Forall plain_record catalog -> Forall readable listings ->
  exists ms st,
    prepare_products_data catalog = Done ms /\
    match_listings debug_mode ms listings = Done st /\
    run debug_mode catalog listings = Done (produce_output st).
Proof.
  intros Hcatalog Hlistings.
  destruct (prepare_loop_plain catalog [] Hcatalog) as [ms0 Hms0].
  destruct (match_loop_readable debug_mode (sort Manufacturer.lt ms0) listings initial
              Hlistings) as [st Hst].
  exists (sort Manufacturer.lt ms0), st.
  unfold run, prepare_products_data, match_listings. rewrite Hms0. simpl.
  by rewrite Hst.
Qed.

(** *** The empty model *)

Lemma append_empty_r (s : string) : s +:+ "" = s.
Proof. induction s as [|c s IH]; [reflexivity|]. by rewrite append_cons, IH. Qed.

Lemma has_word_append (l r : string) : has_word (l +:+ r) = has_word l || has_word r.
Proof.
  induction l as [|c l IH]; [by rewrite append_empty_l|].
  rewrite append_cons. simpl. by rewrite IH, orb_assoc.
Qed.

Lemma word_before_advance (prev : option ascii) (l r : string) :
  Re.word_before (Re.Cursor (Re.advance prev l) r) = true ->
  Re.word_before (Re.Cursor prev r) = true \/ has_word l = true.
Proof.
  revert prev. induction l as [|c l IH]; intros prev; simpl; [by left|].
  intros [Hc|Hl]%IH; right.
  - unfold Re.word_before in Hc. simpl in Hc. by rewrite Hc.
  - rewrite Hl. apply orb_true_r.
Qed.

Lemma first_word (t : string) (prev : option ascii) :
  Re.word_before (Re.Cursor prev t) = false -> has_word t = true ->
  exists l r, t = l +:+ r /\ Re.at_boundary (Re.Cursor (Re.advance prev l) r) = true.
Proof.
  revert prev. induction t as [|c t IH]; intros prev Hprev; simpl; [discriminate|].
  destruct (Re.is_word c) eqn:Hc; simpl.
  - intros _. exists "", (String c t). split; [by rewrite append_empty_l|].
    unfold Re.at_boundary, Re.word_after. unfold Re.word_before in *. simpl in *.
    by rewrite Hprev, Hc.
  - intros Ht. destruct (IH (Some c)) as (l & r & -> & Hb); [|done|].
    + unfold Re.word_before. simpl. done.
    + exists (String c l), r. by rewrite append_cons.
Qed.

Lemma whole_token_empty (t : string) :
  Re.whole_token "" t <->
  t = "" \/ t = String Re.newline "" \/ has_word t = true.
Proof.
  unfold Re.whole_token. split.
  - intros (l & r & -> & Hleft & Hright). rewrite append_empty_l in *.
    rewrite append_empty_r in Hright. rewrite has_word_append.
    assert (Hboundary : Re.at_boundary (Re.Cursor (Re.advance None l) r) = true ->
                        has_word l || has_word r = true).
    { unfold Re.at_boundary. intros Hx. apply orb_true_iff.
      destruct (Re.word_before _) eqn:Hb.
      - apply word_before_advance in Hb as [Hb|Hb]; [discriminate|by left].
      - simpl in Hx. right. unfold Re.word_after in Hx. simpl in Hx.
        destruct r as [|c r]; [discriminate|]. simpl. by rewrite Hx. }
    destruct Hright as [Hend|Hb]; [|right; right; by apply Hboundary].
    destruct Hleft as [->|Hb]; [|right; right; by apply Hboundary].
    rewrite append_empty_l. unfold Re.at_end in Hend. simpl in Hend.
    destruct r as [|c [|c' r]]; [by left| |discriminate].
    right. left. by apply Ascii.eqb_eq in Hend as ->.
  - intros [->|[->|Hw]].
    + exists "", "". repeat split; by left.
    + exists "", (String Re.newline ""). repeat split; by left.
    + destruct (first_word t None eq_refl Hw) as (l & r & -> & Hb).
      exists l, r. rewrite append_empty_l, append_empty_r. repeat split; by right.
Qed.

(** X12: a catalog record with the empty model is accepted, and its
    product is found in every title that has a letter, a digit or an
    underscore, in the empty title and in the title that is a single
    newline, and in no other title. *)
Theorem empty_model_matches_any_word (name : string) (family : option string) :
  exists p,
    Product.new name family "" = Done p /\ Product.model p = "" /\
    forall title,
      Re.search (Product.whole_model_re p) title = true <->
      title = "" \/ title = String Re.newline "" \/ has_word title = true.
Proof.
  eexists. split; [|split].
  - rewrite product_new_spec. by rewrite (compile_ordinary (normalize_str "")).
  - reflexivity.
  - intros title. simpl. by rewrite search_whole_model, whole_token_empty.
Qed.

(** *** The binary search *)

Lemma insertion_point_count {A} (less : A -> A -> bool) (a : list A) (x : A) (i : nat) :
  insertion_point less a x i ->
  i = length (filter (fun y => less y x = true) a).
Proof.
  revert i. induction a as [|y a IH]; intros i (Hlen & Hbelow & Hfrom).
  - simpl in Hlen. rewrite filter_nil. simpl. lia.
  - rewrite filter_cons. destruct i as [|i].
    + rewrite decide_False by (rewrite (Hfrom 0 y); [done|lia|done]).
      apply IH. split; [lia|]. split.
      * intros j z Hj. lia.
      * intros j z _ Hz. apply (Hfrom (S j)); [lia|done].
    + rewrite decide_True by (apply (Hbelow 0); [lia|done]).
      simpl. f_equal. apply IH. split; [simpl in Hlen; lia|]. split.
      * intros j z Hj Hz. apply (Hbelow (S j)); [lia|done].
      * intros j z Hj Hz. apply (Hfrom (S j)); [lia|done].
Qed.

Lemma filter_everything {A} (P : A -> Prop) `{!forall x, Decision (P x)} (l : list A) :
  (forall x, x ∈ l -> P x) -> filter P l = l.
Proof.
  induction l as [|x l IH]; intros Hall; [reflexivity|].
  rewrite filter_cons, decide_True by (apply Hall; by left).
  f_equal. apply IH. intros y Hy. apply Hall. by right.
Qed.

(** X13: on a sorted index, the [index] that [bisect_left] returns for
    a manufacturer name is the number of manufacturers of the index
    whose name is below the normalized name, and these are the entries
    before [index]. *)
Theorem bisect_counts_the_names_below (ms : list Manufacturer.t) (n : string) :
  StronglySorted (no_later Manufacturer.lt) ms ->
  bisect_left Manufacturer.lt ms (Manufacturer.new n)
    = length (filter (fun m => str_lt (Manufacturer.name m) (normalize_str n) = true) ms) /\
  take (bisect_left Manufacturer.lt ms (Manufacturer.new n)) ms
    = filter (fun m => str_lt (Manufacturer.name m) (normalize_str n) = true) ms.
Proof.
  intros Hsorted.
  pose proof (bisect_left_insertion_point Manufacturer.lt manufacturer_le_lt_trans ms
                (Manufacturer.new n) Hsorted) as Hpoint.
  split; [exact (insertion_point_count _ _ _ _ Hpoint)|].
  destruct Hpoint as (Hlen & Hbelow & Hfrom).
  set (i := bisect_left Manufacturer.lt ms (Manufacturer.new n)) in *.
  rewrite <- (take_drop i ms) at 2. rewrite filter_app.
  assert (Hdrop : filter (fun m => str_lt (Manufacturer.name m) (normalize_str n) = true)
                         (drop i ms) = []).
  { apply filter_nothing. intros m (j & Hj)%list_elem_of_lookup.
    rewrite lookup_drop in Hj. specialize (Hfrom (i + j) m).
    unfold Manufacturer.lt in Hfrom. simpl in Hfrom. rewrite Hfrom; [done|lia|done]. }
  rewrite Hdrop, app_nil_r. symmetry. apply filter_everything.
  intros m (j & Hj)%list_elem_of_lookup.
  apply lookup_take_Some in Hj as [Hj Hlt]. by apply (Hbelow j m).
Qed.

(** *** Instances of the further properties *)

Lemma matches_group_listings_by_product_witness :
  dict_get [("b", [Scenario.listing_record "m" "b"]);
            ("a", [Scenario.listing_record "m" "a"])] "a"
  = match listings_of (Scenario.index_of Scenario.ba_catalog) "a" Scenario.ba_listings with
    | [] => None
    | ls => Some ls
    end.
Proof.
  exact (proj1 (matches_group_listings_by_product false _ _ _ ba_listings_run) "a").
Defined.

Lemma debug_mode_leaves_matches_alone_witness :
  match_listings false (Scenario.index_of Scenario.ba_catalog) Scenario.ba_listings
  = Done (State [("b", [Scenario.listing_record "m" "b"]);
                 ("a", [Scenario.listing_record "m" "a"])] 0 [] []).
Proof.
  refine (debug_mode_leaves_matches_alone true _ _
            (State [("b", [Scenario.listing_record "m" "b"]);
                    ("a", [Scenario.listing_record "m" "a"])] 2 [] []) _).
  vm_compute. reflexivity.
Defined.

Lemma debug_counters_account_for_listings_witness :
  exists st,
    match_listings true (Scenario.index_of Scenario.acme_catalog)
                   [Scenario.acme_x100; Scenario.acme_x1000;
                    Scenario.listing_record "Zenith" "Zenith Z1"] = Done st /\
    debug_report st = (1, 2, 1).
Proof.
  assert (Hrun : match_listings true (Scenario.index_of Scenario.acme_catalog)
                   [Scenario.acme_x100; Scenario.acme_x1000;
                    Scenario.listing_record "Zenith" "Zenith Z1"]
                 = Done (State [("acme pro x100", [Scenario.acme_x100])] 1
                               [Scenario.listing_record "Zenith" "Zenith Z1"]
                               [Scenario.acme_x1000])).
  { vm_compute. reflexivity. }
  eexists. split; [exact Hrun|].
  exact (proj2 (proj2 (proj2 (proj2 (debug_counters_account_for_listings _ _ _ Hrun))))).
Defined.

Lemma output_is_the_result_set_witness :
  Permutation
    (produce_output (State [("b", [Scenario.listing_record "m" "b"]);
                            ("a", [Scenario.listing_record "m" "a"])] 0 [] []))
    [("b", [Scenario.listing_record "m" "b"]); ("a", [Scenario.listing_record "m" "a"])].
Proof.
  exact (proj1 (output_is_the_result_set false _ _ _ ba_listings_run)).
Defined.

Lemma add_product_partitions_by_family_witness :
  partitioned (Manufacturer.add_product (Manufacturer.new "acme") Scenario.acme_product).
Proof.
  refine (proj1 (add_product_partitions_by_family (Manufacturer.new "acme")
                   Scenario.acme_product _)).
  repeat split. constructor.
Defined.

Lemma index_groups_catalog_by_manufacturer_witness :
  length (concat (Manufacturer.products <$> [Scenario.acme_manufacturer]))
  = length Scenario.acme_catalog.
Proof.
  exact (proj2 (proj2 (proj2 (index_groups_catalog_by_manufacturer _ _ acme_index)))).
Defined.

Lemma catalog_manufacturer_is_found_witness :
  exists m,
    listing_manufacturer (Scenario.index_of Scenario.cafe_catalog) Scenario.cafe_listing
      = Some m /\
    m ∈ Scenario.index_of Scenario.cafe_catalog /\
    Manufacturer.name m = normalize_str Scenario.cafe_capitals /\
    Manufacturer.products m
      = products_for (normalize_str Scenario.cafe_capitals) Scenario.cafe_catalog /\
    forall title, Scenario.cafe_listing !! "title" = Some title ->
      listing_product (Scenario.index_of Scenario.cafe_catalog) Scenario.cafe_listing
      = resolve_product m (normalize_str title).
Proof.
  refine (catalog_manufacturer_is_found Scenario.cafe_catalog _
            (Scenario.orphan_record Scenario.cafe_capitals "X1" "Cafe X1")
            Scenario.cafe_listing Scenario.cafe_capitals Scenario.cafe_small _ _ _ _ _).
  - vm_compute. reflexivity.
  - by left.
  - vm_compute. reflexivity.
  - vm_compute. reflexivity.
  - vm_compute. reflexivity.
Defined.

Lemma a_match_is_justified_witness :
  exists man title m r,
    Scenario.acme_x100 !! "manufacturer" = Some man /\
    Scenario.acme_x100 !! "title" = Some title /\
    m ∈ [Scenario.acme_manufacturer] /\
    substring (normalize_str man) (Manufacturer.name m) /\
    r ∈ Scenario.acme_catalog /\
    record_manufacturer r = Some (Manufacturer.name m) /\
    product_of r = Some Scenario.acme_product /\
    Re.search (Product.whole_model_re Scenario.acme_product) (normalize_str title) = true /\
    (forall fam, Product.family Scenario.acme_product = Some fam ->
       substring fam (normalize_str title)) /\
    (forall model, r !! "model" = Some model -> Re.ordinary (normalize_str model) = true ->
       Re.whole_token (normalize_str model) (normalize_str title)).
Proof.
  refine (a_match_is_justified Scenario.acme_catalog [Scenario.acme_manufacturer]
            Scenario.acme_x100 Scenario.acme_product acme_index _).
  vm_compute. reflexivity.
Defined.

Lemma plain_input_is_processed_witness :
  exists ms st,
    prepare_products_data Scenario.acme_catalog = Done ms /\
    match_listings false ms [Scenario.acme_x100] = Done st /\
    run false Scenario.acme_catalog [Scenario.acme_x100] = Done (produce_output st).
Proof.
  refine (plain_input_is_processed false Scenario.acme_catalog [Scenario.acme_x100] _ _).
  - constructor; [|constructor]. split; [|split].
    + eexists. vm_compute. reflexivity.
    + eexists. vm_compute. reflexivity.
    + exists "X100". split; [|split]; vm_compute; reflexivity.
  - constructor; [|constructor]. split; eexists; vm_compute; reflexivity.
Defined.

Lemma bisect_counts_the_names_below_witness :
  bisect_left Manufacturer.lt Scenario.sony_index (Manufacturer.new "sony ericsson")
  = length (filter (fun m => str_lt (Manufacturer.name m) (normalize_str "sony ericsson") = true)
                   Scenario.sony_index).
Proof.
  exact (proj1 (bisect_counts_the_names_below Scenario.sony_index "sony ericsson"
                  sony_index_sorted)).
Defined.

(** *** Models that are not ASCII text *)





